(** * tweet-pandas: text cleansing and tweet parsing over columns of text

    A shallow embedding of [tweet_pandas/cleanse.py] and
    [tweet_pandas/tweet.py].  A Python [str] is a sequence of Unicode code
    points, a pandas [Series] of text is a list of such values, and every
    method of [CleanseText] / [TweetParser] is the composition of
    element-wise primitives of [Series] ([.str.findall], [.str.replace],
    [.str.contains], [.str.join], [.str.encode]/[.str.decode], [.apply])
    with the fixed patterns of the two modules.  The patterns are matched by
    a backtracking matcher with the priorities of Python's [re]: leftmost
    match, first alternative first, greedy repetition.  What the code takes
    from outside Python's [re] and [str] is a parameter: [ftfy.fix_text],
    and the Unicode tables behind [\w] and [re.IGNORECASE]. *)

From Stdlib Require Import String Ascii.
From Stdlib Require Import List NArith Arith Bool Lia.
Import ListNotations.

Set Implicit Arguments.

(** ** Text values *)

Definition char := N.
Bind Scope N_scope with char.
Definition text := list char.
Definition column := list text.

(** An ASCII literal of the source, as code points.  A backslash stands for
    itself here, as in a Python raw string. *)
Definition py (s : string) : text := map N_of_ascii (list_ascii_of_string s).

Definition text_eqb (a b : text) : bool :=
  if list_eq_dec N.eq_dec a b then true else false.

(** [x.startswith(p)] *)
Fixpoint is_prefix (p t : text) : bool :=
  match p, t with
  | [], _ => true
  | c :: p', x :: t' => N.eqb c x && is_prefix p' t'
  | _ :: _, [] => false
  end.

(** ** Exceptions *)

Inductive error : Type :=
| ValueError          (* empty separator *)
| TemplateError       (* re.error or IndexError: bad replacement template *)
| UnicodeEncodeError. (* surrogates not allowed *)

Inductive result (A : Type) : Type :=
| Ok (a : A)
| Err (e : error).
Arguments Err {A} e.

Definition bind {A B} (r : result A) (f : A -> result B) : result B :=
  match r with
  | Ok a => f a
  | Err e => Err e
  end.

Notation "x <- r ;; k" := (bind r (fun x => k))
  (at level 61, r at next level, right associativity).

(** A row-wise function that may raise: the first row that raises aborts the
    whole call. *)
Fixpoint mapM {A B} (f : A -> result B) (l : list A) : result (list B) :=
  match l with
  | [] => Ok []
  | a :: l' => b <- f a ;; bs <- mapM f l' ;; Ok (b :: bs)
  end.

(** ** Regular expressions, as [re] compiles the patterns of the modules *)

Module Re.

(** Members of a [[...]] set: a range of code points or a category
    ([\s], [\w]). *)
Inductive item : Type :=
| Range (lo hi : char)
| Category (p : char -> bool).

Inductive regex : Type :=
| Eps
| Lit (c : char)
| In (negate : bool) (items : list item)
| Cat (a b : regex)
| Alt (a b : regex)
| Rep (lo : nat) (hi : option nat) (a : regex)   (* greedy {lo,hi} *)
| Group (n : nat) (a : regex)                    (* capturing group number n *)
| Bol                                            (* ^ *)
| Eol                                            (* $ *)
| Behind (negate : bool) (a : regex).            (* (?<=a) and (?<!a) *)

(** The text of a literal, character by character. *)
Fixpoint lit (s : text) : regex :=
  match s with
  | [] => Eps
  | [c] => Lit c
  | c :: s' => Cat (Lit c) (lit s')
  end.

(** [\s] on a [str] pattern: the code points for which [str.isspace] holds. *)
Definition is_space (x : char) : bool :=
  ((9 <=? x) && (x <=? 13) || (28 <=? x) && (x <=? 32)
   || (x =? 133) || (x =? 160) || (x =? 5760)
   || (8192 <=? x) && (x <=? 8202)
   || (x =? 8232) || (x =? 8233) || (x =? 8239) || (x =? 8287)
   || (x =? 12288))%N.

(** Number of capturing groups, and the least width of a match (the width
    [re] steps back for a look-behind, whose body has one width only). *)
Fixpoint ngroups (r : regex) : nat :=
  match r with
  | Cat a b | Alt a b => ngroups a + ngroups b
  | Rep _ _ a | Behind _ a => ngroups a
  | Group _ a => S (ngroups a)
  | _ => 0
  end.

Fixpoint width (r : regex) : nat :=
  match r with
  | Lit _ | In _ _ => 1
  | Cat a b => width a + width b
  | Alt a b => Nat.min (width a) (width b)
  | Rep lo _ a => lo * width a
  | Group _ a => width a
  | Eps | Bol | Eol | Behind _ _ => 0
  end.

(** The matcher's position in the subject: the text already passed (last
    character first), the text ahead, and the groups captured so far (the
    latest binding of a group first). *)
Record mstate : Type := MState {
  before : text;
  after : text;
  groups : list (nat * text)
}.

Definition advance (x : char) (rest : text) (st : mstate) : mstate :=
  MState (x :: before st) rest (groups st).

(** The text between two positions of one run of the matcher. *)
Definition consumed (st st' : mstate) : text :=
  firstn (length (after st) - length (after st')) (after st).

Definition capture (n : nat) (st st' : mstate) : mstate :=
  MState (before st') (after st') ((n, consumed st st') :: groups st').

Section Matcher.

(** [None]: case-sensitive matching.  [Some same]: [re.IGNORECASE], where
    [same c x] is the case-equivalence of code points of the Unicode
    tables. *)
Variable ic : option (char -> char -> bool).

Definition lit_match (c x : char) : bool :=
  match ic with
  | None => N.eqb c x
  | Some same => N.eqb c x || same c x
  end.

Definition codes (lo hi : char) : list char :=
  map N.of_nat (seq (N.to_nat lo) (S (N.to_nat hi) - N.to_nat lo)).

Definition item_match (it : item) (x : char) : bool :=
  match it with
  | Category p => p x
  | Range lo hi =>
      match ic with
      | None => (lo <=? x)%N && (x <=? hi)%N
      | Some same => existsb (fun i => N.eqb i x || same i x) (codes lo hi)
      end
  end.

Definition set_match (negate : bool) (items : list item) (x : char) : bool :=
  xorb negate (existsb (fun it => item_match it x) items).

Definition cont := mstate -> option mstate.

Definition below (i : nat) (hi : option nat) : bool :=
  match hi with
  | None => true
  | Some h => i <? h
  end.

(** Greedy repetition of a body [m]: one more round of the body is tried
    first, and only when that way fails does the rest of the pattern run
    from the present position (if [lo] rounds are done).  A round must move
    forward, so the rounds are bounded by the text ahead; a round that
    takes nothing (only the optional look-behind of RETWEET_RULE can) counts
    as not done, and the rest runs from the same position. *)
Fixpoint rep_loop (m : mstate -> cont -> option mstate) (lo : nat)
    (hi : option nat) (k : cont) (fuel i : nat) (st : mstate)
    {struct fuel} : option mstate :=
  let stop := if lo <=? i then k st else None in
  match fuel with
  | O => stop
  | S fuel' =>
      if below i hi then
        match m st (fun st' =>
                 if length (after st') <? length (after st)
                 then rep_loop m lo hi k fuel' (S i) st'
                 else None) with
        | Some s => Some s
        | None => stop
        end
      else stop
  end.

(** [run r st k]: match [r] at [st], then the rest of the pattern [k]. *)
Fixpoint run (r : regex) (st : mstate) (k : cont) {struct r} : option mstate :=
  match r with
  | Eps => k st
  | Lit c =>
      match after st with
      | x :: rest => if lit_match c x then k (advance x rest st) else None
      | [] => None
      end
  | In negate items =>
      match after st with
      | x :: rest =>
          if set_match negate items x then k (advance x rest st) else None
      | [] => None
      end
  | Cat a b => run a st (fun st' => run b st' k)
  | Alt a b =>
      match run a st k with
      | Some s => Some s
      | None => run b st k
      end
  | Rep lo hi a => rep_loop (run a) lo hi k (S (length (after st))) 0 st
  | Group n a => run a st (fun st' => k (capture n st st'))
  | Bol =>
      match before st with
      | [] => k st
      | _ :: _ => None
      end
  | Eol =>
      (* the end of the text, or just before a newline that ends it *)
      match after st with
      | [] => k st
      | [x] => if (x =? 10)%N then k st else None
      | _ => None
      end
  | Behind negate a =>
      let w := width a in
      if length (before st) <? w then (if negate then k st else None)
      else
        let st0 := MState (skipn w (before st))
                          (rev (firstn w (before st)) ++ after st)
                          (groups st) in
        match run a st0 (fun s =>
                 if length (after s) =? length (after st)
                 then Some s else None) with
        | Some s =>
            if negate then None
            else k (MState (before st) (after st) (groups s))
        | None => if negate then k st else None
        end
  end.

(** [pattern.match] at a position of the subject. *)
Definition match_at (r : regex) (bef aft : text) : option mstate :=
  run r (MState bef aft []) Some.

End Matcher.

(** *** Scanning a subject: [finditer] *)

(** What a left-to-right scan yields: a character no match covers, or a
    match with its groups. *)
Inductive piece : Type :=
| Skip (c : char)
| Hit (m : text) (g : list (nat * text)).

(** After a match the scan goes on behind it; where there is none, or an
    empty one, it moves one character on. *)
Fixpoint scan (m : text -> text -> option mstate) (fuel : nat)
    (bef aft : text) {struct fuel} : list piece :=
  match fuel with
  | O => []
  | S fuel' =>
      let onward :=
        match aft with
        | [] => []
        | c :: aft' => Skip c :: scan m fuel' (c :: bef) aft'
        end in
      match m bef aft with
      | None => onward
      | Some s =>
          let n := length aft - length (after s) in
          match n with
          | O => Hit [] (groups s) :: onward
          | S _ =>
              Hit (firstn n aft) (groups s)
              :: scan m fuel' (rev (firstn n aft) ++ bef) (skipn n aft)
          end
      end
  end.

Definition finditer (ic : option (char -> char -> bool)) (r : regex)
    (t : text) : list piece :=
  scan (match_at ic r) (S (length t)) [] t.

Definition group_text (g : list (nat * text)) (n : nat) : text :=
  match find (fun p => Nat.eqb (fst p) n) g with
  | Some p => snd p
  | None => []
  end.

(** [pattern.findall]: the matches, or the text of group 1 where the
    pattern has a group (no pattern of the modules has more than one). *)
Definition found (r : regex) (p : piece) : list text :=
  match p with
  | Skip _ => []
  | Hit m g => [match ngroups r with O => m | S _ => group_text g 1 end]
  end.

Definition findall (ic : option (char -> char -> bool)) (r : regex)
    (t : text) : list text :=
  flat_map (found r) (finditer ic r t).

(** [pattern.search(x) is not None] *)
Definition is_hit (p : piece) : bool :=
  match p with
  | Hit _ _ => true
  | Skip _ => false
  end.

Definition search (ic : option (char -> char -> bool)) (r : regex)
    (t : text) : bool :=
  existsb is_hit (finditer ic r t).

End Re.

(** ** Replacement templates of [pattern.sub] *)

Module Template.

Inductive titem : Type :=
| TLit (c : char)
| TGroup (n : nat).

Definition is_digit (x : char) : bool := ((48 <=? x) && (x <=? 57))%N.
Definition is_octal (x : char) : bool := ((48 <=? x) && (x <=? 55))%N.
Definition is_letter (x : char) : bool :=
  ((65 <=? x) && (x <=? 90) || (97 <=? x) && (x <=? 122))%N.
Definition digit (x : char) : nat := N.to_nat (x - 48).

(** Up to the closing [>] of [\g<...>]. *)
Fixpoint until_gt (s : text) : option (text * text) :=
  match s with
  | [] => None
  | c :: s' =>
      if (c =? 62)%N then Some ([], s')
      else match until_gt s' with
           | Some (name, rest) => Some (c :: name, rest)
           | None => None
           end
  end.

Definition number (name : text) : nat :=
  fold_left (fun n c => 10 * n + digit c) name 0.

(** A reference to group [n] of a pattern with [ng] groups. *)
Definition addgroup (ng n : nat) : result titem :=
  if n <=? ng then Ok (TGroup n) else Err TemplateError.

(** The escapes of a template: [\g<n>] and [\n] refer to a group, [\0oo]
    and [\ooo] are octal codes, [\a \b \f \n \r \t \v \\] are the usual
    characters, another ASCII letter is an error, and a backslash before
    anything else stays as it is.  A group name is a decimal number in
    ASCII digits, the spelling every version of [re] takes (no pattern of
    the modules names a group). *)
Definition escape (c : char) : option char :=
  if (c =? 97)%N then Some 7%N        (* \a *)
  else if (c =? 98)%N then Some 8%N   (* \b *)
  else if (c =? 102)%N then Some 12%N (* \f *)
  else if (c =? 110)%N then Some 10%N (* \n *)
  else if (c =? 114)%N then Some 13%N (* \r *)
  else if (c =? 116)%N then Some 9%N  (* \t *)
  else if (c =? 118)%N then Some 11%N (* \v *)
  else if (c =? 92)%N then Some 92%N  (* \\ *)
  else None.

Fixpoint parse (ng fuel : nat) (s : text) {struct fuel}
    : result (list titem) :=
  match fuel with
  | O => Ok []
  | S fuel' =>
      let more (it : list titem) (rest : text) :=
        tl <- parse ng fuel' rest ;; Ok (it ++ tl) in
      match s with
      | [] => Ok []
      | c :: rest =>
          if negb (c =? 92)%N then more [TLit c] rest
          else
            match rest with
            | [] => Err TemplateError                       (* a lone backslash *)
            | e :: r1 =>
                if (e =? 103)%N then                  (* \g<name> *)
                  match r1 with
                  | lt :: r2 =>
                      if (lt =? 60)%N then
                        match until_gt r2 with
                        | Some (name, r3) =>
                            match name with
                            | [] => Err TemplateError
                            | _ :: _ =>
                                if forallb is_digit name then
                                  g <- addgroup ng (number name) ;;
                                  more [g] r3
                                else Err TemplateError
                            end
                        | None => Err TemplateError
                        end
                      else Err TemplateError
                  | [] => Err TemplateError
                  end
                else if (e =? 48)%N then              (* \0, \0o, \0oo *)
                  match r1 with
                  | o1 :: r2 =>
                      if is_octal o1 then
                        match r2 with
                        | o2 :: r3 =>
                            if is_octal o2 then
                              more [TLit (N.of_nat (8 * digit o1 + digit o2))]
                                   r3
                            else more [TLit (N.of_nat (digit o1))] r2
                        | [] => more [TLit (N.of_nat (digit o1))] r2
                        end
                      else more [TLit 0%N] r1
                  | [] => more [TLit 0%N] r1
                  end
                else if is_digit e then               (* \n, \nn, \ooo *)
                  match r1 with
                  | d2 :: r2 =>
                      if is_digit d2 then
                        match r2 with
                        | d3 :: r3 =>
                            if is_octal e && is_octal d2 && is_octal d3 then
                              let v := 64 * digit e + 8 * digit d2 + digit d3 in
                              if v <=? 255 then more [TLit (N.of_nat v)] r3
                              else Err TemplateError
                            else
                              g <- addgroup ng (10 * digit e + digit d2) ;;
                              more [g] r2
                        | [] =>
                            g <- addgroup ng (10 * digit e + digit d2) ;;
                            more [g] r2
                        end
                      else g <- addgroup ng (digit e) ;; more [g] r1
                  | [] => g <- addgroup ng (digit e) ;; more [g] r1
                  end
                else
                  match escape e with
                  | Some x => more [TLit x] r1
                  | None =>
                      if is_letter e then Err TemplateError
                      else more [TLit c; TLit e] r1
                  end
            end
      end
  end.

Definition compile (ng : nat) (repl : text) : result (list titem) :=
  parse ng (S (length repl)) repl.

(** The text a match is replaced by: group 0 is the match itself, a group
    that took no part is empty. *)
Definition render (tpl : list titem) (m : text) (g : list (nat * text))
    : text :=
  flat_map (fun it =>
              match it with
              | TLit c => [c]
              | TGroup O => m
              | TGroup n => Re.group_text g n
              end) tpl.

End Template.

(** [pattern.sub(repl, x)]: the template is compiled first (a bad one
    raises whether or not the pattern matches), then every match is
    replaced and everything else copied. *)
Definition replaced (tpl : list Template.titem) (p : Re.piece) : text :=
  match p with
  | Re.Skip c => [c]
  | Re.Hit m g => Template.render tpl m g
  end.

Definition re_sub (ic : option (char -> char -> bool)) (r : Re.regex)
    (repl x : text) : result text :=
  tpl <- Template.compile (Re.ngroups r) repl ;;
  Ok (flat_map (replaced tpl) (Re.finditer ic r x)).

(** ** Methods of [str] *)

(** [x.split(sep)] and [x.replace(old, new)] go through [x] once; [skip]
    counts the characters of an occurrence still to pass. *)
Fixpoint split_go (sep : text) (skip : nat) (cur x : text) : list text :=
  match x with
  | [] => [rev cur]
  | c :: x' =>
      match skip with
      | S n => split_go sep n cur x'
      | O =>
          if is_prefix sep x
          then rev cur :: split_go sep (length sep - 1) [] x'
          else split_go sep 0 (c :: cur) x'
      end
  end.

Definition str_split (sep x : text) : result (list text) :=
  match sep with
  | [] => Err ValueError
  | _ :: _ => Ok (split_go sep 0 [] x)
  end.

Fixpoint replace_go (old new : text) (skip : nat) (x : text) : text :=
  match x with
  | [] => match old with [] => new | _ :: _ => [] end
  | c :: x' =>
      match skip with
      | S n => replace_go old new n x'
      | O =>
          match old with
          | [] => new ++ c :: replace_go old new 0 x'
          | _ :: _ =>
              if is_prefix old x
              then new ++ replace_go old new (length old - 1) x'
              else c :: replace_go old new 0 x'
          end
      end
  end.

Definition str_replace (old new x : text) : text := replace_go old new 0 x.

(** [sep.join(l)] *)
Fixpoint str_join (sep : text) (l : list text) : text :=
  match l with
  | [] => []
  | [a] => a
  | a :: l' => a ++ sep ++ str_join sep l'
  end.

(** [x.encode("utf-8")], one code point at a time; a surrogate raises. *)
Definition utf8 (c : char) : result (list N) :=
  (if c <? 128 then Ok [c]
   else if c <? 2048 then Ok [192 + c / 64; 128 + c mod 64]
   else if c <? 65536 then
     if (55296 <=? c) && (c <=? 57343) then Err UnicodeEncodeError
     else Ok [224 + c / 4096; 128 + (c / 64) mod 64; 128 + c mod 64]
   else Ok [240 + c / 262144; 128 + (c / 4096) mod 64;
            128 + (c / 64) mod 64; 128 + c mod 64])%N.

Fixpoint str_encode (x : text) : result (list N) :=
  match x with
  | [] => Ok []
  | c :: x' => b <- utf8 c ;; bs <- str_encode x' ;; Ok (b ++ bs)
  end.

(** [b.decode("ascii", errors="ignore")]: bytes that are not ASCII are
    dropped. *)
Definition bytes_decode_ascii (b : list N) : text :=
  filter (fun y => (y <? 128)%N) b.

(** [collections.Counter(l)]: how often each element occurs, in the order
    of first occurrence. *)
Fixpoint counter_add (x : text) (c : list (text * nat)) : list (text * nat) :=
  match c with
  | [] => [(x, 1)]
  | (y, n) :: c' =>
      if text_eqb x y then (y, S n) :: c' else (y, n) :: counter_add x c'
  end.

Definition Counter (l : list text) : list (text * nat) :=
  fold_left (fun c x => counter_add x c) l [].

(** ** Element-wise primitives of [pandas.Series] *)

Module Series.

Definition apply {A B} (f : A -> B) (col : list A) : list B := map f col.

Definition apply_raising {A B} (f : A -> result B) (col : list A)
    : result (list B) := mapM f col.

Definition str_findall (r : Re.regex) (col : column) : list (list text) :=
  map (Re.findall None r) col.

(** [.str.replace(pat, repl, regex=True)] *)
Definition str_replace_regex (r : Re.regex) (repl : text) (col : column)
    : result column :=
  mapM (re_sub None r repl) col.

(** [.str.replace(pat, repl, regex=False)] *)
Definition str_replace_literal (pat repl : text) (col : column) : column :=
  map (str_replace pat repl) col.

(** [.str.contains(pat, case=...)]; [same] is the case-equivalence that
    [re.IGNORECASE] uses when [case] is off. *)
Definition str_contains (same : char -> char -> bool) (r : Re.regex)
    (case : bool) (col : column) : list bool :=
  map (Re.search (if case then None else Some same) r) col.

Definition str_join (sep : text) (col : list (list text)) : column :=
  map (str_join sep) col.

Definition str_encode_utf8 (col : column) : result (list (list N)) :=
  mapM str_encode col.

Definition str_decode_ascii_ignore (col : list (list N)) : column :=
  map bytes_decode_ascii col.

End Series.

(** What a row of a result holds. *)
Inductive value : Type :=
| VText (t : text)
| VList (l : list text)
| VInt (n : nat)
| VBool (b : bool)
| VCounter (c : list (text * nat)).

Definition code (a : ascii) : char := N_of_ascii a.
Definition one (c : char) : Re.item := Re.Range c c.

Infix ">>" := Re.Cat (at level 61, right associativity).

(** ** cleanse.py *)

Module CleanseText.

(** DOUBLE_QUOTES = r"\\xe2\\x80(\\x9c|\\x9d)": in a raw string each [\\] is
    the pattern of one backslash, so the pattern is the text of the escaped
    bytes, a backslash and [xe2] and so on. *)
Definition DOUBLE_QUOTES : Re.regex :=
  Re.lit (py "\xe2\x80")
  >> Re.Group 1 (Re.Alt (Re.lit (py "\x9c")) (Re.lit (py "\x9d"))).

(** SINGLE_QUOTES = r"\\xe2\\x80(\\x98|\\x99)" *)
Definition SINGLE_QUOTES : Re.regex :=
  Re.lit (py "\xe2\x80")
  >> Re.Group 1 (Re.Alt (Re.lit (py "\x98")) (Re.lit (py "\x99"))).

(** ELIPSES_RULE = r"(\.{2,}|\\xe2\\x80\\xa6|...)", the last alternative
    being the three characters U+00E2 U+20AC U+00A6. *)
Definition ELIPSES_RULE : Re.regex :=
  Re.Group 1
    (Re.Alt (Re.Rep 2 None (Re.Lit (code ".")))
       (Re.Alt (Re.lit (py "\xe2\x80\xa6"))
               (Re.lit [226; 8364; 166]%N))).

(** URLLINK_RULE =
    "http[s]?://(?:[a-zA-Z]|[0-9]|[$-_@.&+]|[!*\(\),]|(?:%[0-9a-fA-F][0-9a-fA-F]))+" *)
Definition hexdigit : Re.regex :=
  Re.In false [Re.Range (code "0") (code "9"); Re.Range (code "a") (code "f");
               Re.Range (code "A") (code "F")].

Definition url_char : Re.regex :=
  Re.Alt (Re.In false [Re.Range (code "a") (code "z");
                       Re.Range (code "A") (code "Z")])
    (Re.Alt (Re.In false [Re.Range (code "0") (code "9")])
       (Re.Alt (Re.In false [Re.Range (code "$") (code "_"); one (code "@");
                             one (code "."); one (code "&"); one (code "+")])
          (Re.Alt (Re.In false [one (code "!"); one (code "*");
                                one (code "("); one (code ")");
                                one (code ",")])
                  (Re.Lit (code "%") >> hexdigit >> hexdigit)))).

Definition URLLINK_RULE : Re.regex :=
  Re.lit (py "http")
  >> Re.Rep 0 (Some 1) (Re.In false [one (code "s")])
  >> Re.lit (py "://")
  >> Re.Rep 1 None url_char.

(** r"(\\n)+": one backslash followed by [n], once or more. *)
Definition NEWLINE_RULE : Re.regex :=
  Re.Rep 1 None (Re.Group 1 (Re.lit (py "\n"))).

(** "(^['\"]|['\"]$)"; 39 is the apostrophe, 34 the double quote. *)
Definition quote : Re.regex := Re.In false [one 39%N; one 34%N].

Definition OUTER_QUOTES : Re.regex :=
  Re.Group 1 (Re.Alt (Re.Bol >> quote) (quote >> Re.Eol)).

(** "\s+" and "^\s+|\s+$" *)
Definition SPACES : Re.regex :=
  Re.Rep 1 None (Re.In false [Re.Category Re.is_space]).

Definition OUTER_SPACES : Re.regex :=
  Re.Alt (Re.Bol >> SPACES) (SPACES >> Re.Eol).

Definition get_hyperlinks (col : column) : list (list text) :=
  Series.str_findall URLLINK_RULE col.

Definition strip_elipses (token : text) (col : column) : result column :=
  Series.str_replace_regex ELIPSES_RULE token col.

Definition strip_encoding (col : column) : result column :=
  b <- Series.str_encode_utf8 col ;; Ok (Series.str_decode_ascii_ignore b).

Definition strip_hyperlink (token : text) (col : column) : result column :=
  Series.str_replace_regex URLLINK_RULE token col.

Definition strip_newline (col : column) : result column :=
  Series.str_replace_regex NEWLINE_RULE (py " ") col.

Definition punctuation : text := py "+_:!,.".

Definition strip_punctuation (col : column) : column :=
  Series.str_replace_literal punctuation [] col.

Definition strip_quotes (col : column) : result column :=
  c1 <- Series.str_replace_regex DOUBLE_QUOTES [34%N] col ;;
  c2 <- Series.str_replace_regex SINGLE_QUOTES [39%N] c1 ;;
  Series.str_replace_regex OUTER_QUOTES [] c2.

Definition strip_whitespace (token : text) (col : column) : result column :=
  c1 <- Series.str_replace_regex SPACES token col ;;
  Series.str_replace_regex OUTER_SPACES [] c1.

Section Ftfy.

(** [ftfy.fix_text], the mojibake repair of the ftfy package. *)
Variable ftfy_fix_text : text -> text.

Definition strip_mojibake (col : column) : column :=
  Series.apply ftfy_fix_text col.

Definition fix_text (col : column) : column := strip_mojibake col.

End Ftfy.

End CleanseText.

(** ** tweet.py *)

Module TweetParser.

Definition handle_char : Re.regex :=
  Re.In false [Re.Range (code "a") (code "z"); Re.Range (code "A") (code "Z");
               Re.Range (code "0") (code "9"); one (code "_")].

Definition space : Re.regex := Re.In false [Re.Category Re.is_space].

(** HANDLE_RULE = "@([a-zA-Z0-9_]{2,15})" *)
Definition HANDLE_RULE : Re.regex :=
  Re.Lit (code "@") >> Re.Group 1 (Re.Rep 2 (Some 15) handle_char).

(** MENTION_RULE = f"(?<!RT\s){HANDLE_RULE}" *)
Definition MENTION_RULE : Re.regex :=
  Re.Behind true (Re.lit (py "RT") >> space) >> HANDLE_RULE.

(** RETWEET_RULE = f"(?<=RT\s)?RT\s{HANDLE_RULE}:" *)
Definition RETWEET_RULE : Re.regex :=
  Re.Rep 0 (Some 1) (Re.Behind false (Re.lit (py "RT") >> space))
  >> Re.lit (py "RT") >> space >> HANDLE_RULE >> Re.Lit (code ":").

(** HASHTAG_RULE = "#([a-zA-Z0-9_]{1,})" *)
Definition HASHTAG_RULE : Re.regex :=
  Re.Lit (code "#") >> Re.Group 1 (Re.Rep 1 None handle_char).

(** EMOJI_EMOJI_SET: emoticons, pictograms, transport and map symbols,
    flags. *)
Definition EMOJI_EMOJI_SET : Re.regex :=
  Re.In false [Re.Range 128512 128591; Re.Range 127744 128511;
               Re.Range 128640 128767; Re.Range 127456 127487]%N.

(** [lambda x: len(x.split(sep) if x != "" else "")] *)
Definition count_row (sep x : text) : result nat :=
  match x with
  | [] => Ok (length (@nil char))
  | _ :: _ => l <- str_split sep x ;; Ok (length l)
  end.

Definition count_elements (sep : text) (col : column) : result (list nat) :=
  Series.apply_raising (count_row sep) col.

(** [hashtags if not sep else hashtags.str.join(sep)] *)
Definition joined (sep : text) (found : list (list text)) : list value :=
  match sep with
  | [] => map VList found
  | _ :: _ => map VText (Series.str_join sep found)
  end.

Definition get_hashtags (sep : text) (col : column) : list value :=
  joined sep (Series.str_findall HASHTAG_RULE col).

Definition get_mentions (sep : text) (col : column) : list value :=
  joined sep (Series.str_findall MENTION_RULE col).

Definition get_retweets (col : column) : list (list text) :=
  Series.str_findall RETWEET_RULE col.

Definition strip_hashtags (token : text) (col : column) : result column :=
  Series.str_replace_regex HASHTAG_RULE token col.

Definition strip_mentions (token : text) (col : column) : result column :=
  Series.str_replace_regex MENTION_RULE token col.

Definition strip_retweets (token : text) (col : column) : result column :=
  Series.str_replace_regex RETWEET_RULE token col.

Section Unicode.

(** Two tables of the Unicode database that [re] consults:
    [str.isalnum] for [\w], and the case-equivalence of [re.IGNORECASE]. *)
Variable isalnum : char -> bool.
Variable same_case : char -> char -> bool.

Definition is_word (x : char) : bool := isalnum x || (x =? 95)%N.

(** EMOJI_EMOJI_ALL = r"[^\w\s,. ]" *)
Definition EMOJI_EMOJI_ALL : Re.regex :=
  Re.In true [Re.Category is_word; Re.Category Re.is_space;
              one (code ","); one (code "."); one (code " ")].

Definition get_emojis (counts all_emojis : bool) (col : column)
    : list value :=
  let emoji_rule := if all_emojis then EMOJI_EMOJI_ALL else EMOJI_EMOJI_SET in
  let emojis := Series.str_findall emoji_rule col in
  if counts then map VCounter (Series.apply Counter emojis)
  else map VList emojis.

Definition has_hashtags (case_sensitive : bool) (col : column) : list bool :=
  Series.str_contains same_case HASHTAG_RULE case_sensitive col.

Definition has_mentions (case_sensitive : bool) (col : column) : list bool :=
  Series.str_contains same_case MENTION_RULE case_sensitive col.

Definition has_retweets (case_sensitive : bool) (col : column) : list bool :=
  Series.str_contains same_case RETWEET_RULE case_sensitive col.

End Unicode.

End TweetParser.


(** ** The methods as calls on a column *)

Inductive operation : Type :=
| Fix_text
| Get_hyperlinks
| Strip_elipses (token : text)
| Strip_encoding
| Strip_hyperlink (token : text)
| Strip_mojibake
| Strip_newline
| Strip_punctuation
| Strip_quotes
| Strip_whitespace (token : text)
| Count_elements (sep : text)
| Get_emojis (counts all_emojis : bool)
| Get_hashtags (sep : text)
| Get_mentions (sep : text)
| Get_retweets
| Has_hashtags (case_sensitive : bool)
| Has_mentions (case_sensitive : bool)
| Has_retweets (case_sensitive : bool)
| Strip_hashtags (token : text)
| Strip_mentions (token : text)
| Strip_retweets (token : text).

Section Calls.

Variable ftfy_fix_text : text -> text.
Variable isalnum : char -> bool.
Variable same_case : char -> char -> bool.

Definition texts (r : result column) : result (list value) :=
  c <- r ;; Ok (map VText c).

Definition call (op : operation) (col : column) : result (list value) :=
  match op with
  | Fix_text => Ok (map VText (CleanseText.fix_text ftfy_fix_text col))
  | Get_hyperlinks => Ok (map VList (CleanseText.get_hyperlinks col))
  | Strip_elipses token => texts (CleanseText.strip_elipses token col)
  | Strip_encoding => texts (CleanseText.strip_encoding col)
  | Strip_hyperlink token => texts (CleanseText.strip_hyperlink token col)
  | Strip_mojibake =>
      Ok (map VText (CleanseText.strip_mojibake ftfy_fix_text col))
  | Strip_newline => texts (CleanseText.strip_newline col)
  | Strip_punctuation => Ok (map VText (CleanseText.strip_punctuation col))
  | Strip_quotes => texts (CleanseText.strip_quotes col)
  | Strip_whitespace token => texts (CleanseText.strip_whitespace token col)
  | Count_elements sep =>
      c <- TweetParser.count_elements sep col ;; Ok (map VInt c)
  | Get_emojis counts all_emojis =>
      Ok (TweetParser.get_emojis isalnum counts all_emojis col)
  | Get_hashtags sep => Ok (TweetParser.get_hashtags sep col)
  | Get_mentions sep => Ok (TweetParser.get_mentions sep col)
  | Get_retweets => Ok (map VList (TweetParser.get_retweets col))
  | Has_hashtags cs => Ok (map VBool (TweetParser.has_hashtags same_case cs col))
  | Has_mentions cs => Ok (map VBool (TweetParser.has_mentions same_case cs col))
  | Has_retweets cs => Ok (map VBool (TweetParser.has_retweets same_case cs col))
  | Strip_hashtags token => texts (TweetParser.strip_hashtags token col)
  | Strip_mentions token => texts (TweetParser.strip_mentions token col)
  | Strip_retweets token => texts (TweetParser.strip_retweets token col)
  end.

End Calls.

(** ** Where a pattern matches, read off the text directly *)

(** A matcher tells, for a position (the text behind it, last character
    first, and the text ahead), how long the match that starts there is. *)
Definition matcher := text -> text -> option nat.

(** Length of the longest prefix of characters in a class. *)
Fixpoint span (p : char -> bool) (x : text) : nat :=
  match x with
  | c :: x' => if p c then S (span p x') else 0
  | [] => 0
  end.

(** Left to right: a match is replaced by the token and passed over
    ([skip] counts what is left of it), any other character is kept. *)
Fixpoint replace_all (at_ : matcher) (token : text) (skip : nat)
    (bef x : text) : text :=
  match x with
  | [] => []
  | c :: x' =>
      match skip with
      | S k => replace_all at_ token k (c :: bef) x'
      | O =>
          match at_ bef x with
          | Some n => token ++ replace_all at_ token (n - 1) (c :: bef) x'
          | None => c :: replace_all at_ token 0 (c :: bef) x'
          end
      end
  end.

(** The same walk through a text, as the pieces a scan yields; [grp] gives
    the groups of a match. *)
Fixpoint pieces (at_ : matcher) (grp : text -> list (nat * text))
    (skip : nat) (bef x : text) : list Re.piece :=
  match x with
  | [] => []
  | c :: x' =>
      match skip with
      | S k => pieces at_ grp k (c :: bef) x'
      | O =>
          match at_ bef x with
          | Some n =>
              Re.Hit (firstn n x) (grp (firstn n x))
              :: pieces at_ grp (n - 1) (c :: bef) x'
          | None => Re.Skip c :: pieces at_ grp 0 (c :: bef) x'
          end
      end
  end.

(** The state the matcher is in after a match of length [n] at a
    position. *)
Definition land (n : nat) (g : list (nat * text)) (bef aft : text)
    : Re.mstate :=
  Re.MState (rev (firstn n aft) ++ bef) (skipn n aft) g.

(** A pattern matches as a matcher says. *)
Definition matches_as (r : Re.regex) (at_ : matcher)
    (grp : text -> list (nat * text)) : Prop :=
  (forall bef aft,
      Re.match_at None r bef aft =
      option_map (fun n => land n (grp (firstn n aft)) bef aft) (at_ bef aft))
  /\ (forall bef aft n, at_ bef aft = Some n -> 1 <= n <= length aft).

(** A token without a backslash: [re] takes it as it is. *)
Definition plain (token : text) : Prop := ~ In 92%N token.

(** ** Greedy repetition, step by step *)

Section Greedy.

(** One round of a repeated body that can go one way only. *)
Variable step : Re.mstate -> option Re.mstate.

(** As many rounds as the bound and the text allow: the number of rounds
    done and the position reached. *)
Fixpoint greedy (fuel : nat) (hi : option nat) (i : nat) (st : Re.mstate)
    : nat * Re.mstate :=
  match fuel with
  | O => (i, st)
  | S fuel' =>
      if Re.below i hi then
        match step st with
        | Some s => greedy fuel' hi (S i) s
        | None => (i, st)
        end
      else (i, st)
  end.

End Greedy.

(** A round that takes one character of a class. *)
Definition class_step (p : char -> bool) (st : Re.mstate)
    : option Re.mstate :=
  match Re.after st with
  | x :: rest => if p x then Some (Re.advance x rest st) else None
  | [] => None
  end.

Definition cap (hi : option nat) (i n : nat) : nat :=
  match hi with
  | None => n
  | Some h => Nat.min n (h - i)
  end.

(** ** The patterns of the modules as matchers *)

Definition in_range (lo hi x : char) : bool := ((lo <=? x) && (x <=? hi))%N.
Arguments in_range (lo hi x)%_N.

(** [[a-zA-Z0-9_]] *)
Definition is_handle (x : char) : bool :=
  in_range 97 122 x || in_range 65 90 x || in_range 48 57 x || (x =? 95)%N.

(** The text behind a position ends in [RT] and one whitespace character:
    what [(?<!RT\s)] rules out. *)
Definition rt_marker (bef : text) : bool :=
  match bef with
  | s :: t :: r :: _ => (r =? 82)%N && (t =? 84)%N && Re.is_space s
  | _ => false
  end.

(** The handle after an [@]: two characters of the class at least, fifteen
    at most. *)
Definition handle_at (x : text) : option text :=
  let n := span is_handle x in
  if 2 <=? n then Some (firstn (Nat.min n 15) x) else None.

(** MENTION_RULE *)
Definition mention_at (marker : text -> bool) : matcher := fun bef aft =>
  match aft with
  | c :: rest =>
      if (c =? 64)%N && negb (marker bef) then
        match handle_at rest with
        | Some h => Some (S (length h))
        | None => None
        end
      else None
  | [] => None
  end.

(** The mentions of a text: at every [@] that the marker does not precede
    and a handle follows, that handle. *)
Fixpoint mentions (marker : text -> bool) (bef x : text) : list text :=
  match x with
  | [] => []
  | c :: x' =>
      (if (c =? 64)%N && negb (marker bef) then
         match handle_at x' with
         | Some h => [h]
         | None => []
         end
       else [])
      ++ mentions marker (c :: bef) x'
  end.

(** The marker as three characters, [R], [T] and a space. *)
Definition rt_space (bef : text) : bool :=
  match bef with
  | s :: t :: r :: _ => (r =? 82)%N && (t =? 84)%N && (s =? 32)%N
  | _ => false
  end.

(** URLLINK_RULE: the characters of the repeated alternatives (the fifth
    alternative begins with [%], which the third has already). *)
Definition is_url_char (x : char) : bool :=
  (in_range 97 122 x || in_range 65 90 x)
  || in_range 48 57 x
  || (in_range 36 95 x || (x =? 64) || (x =? 46) || (x =? 38) || (x =? 43))%N
  || ((x =? 33) || (x =? 42) || (x =? 40) || (x =? 41) || (x =? 44))%N.

(** [http://] or [https://], then one URL character at least and all that
    follow. *)
Definition url_at : matcher := fun _ aft =>
  if is_prefix (py "http://") aft then
    let n := span is_url_char (skipn 7 aft) in
    if 1 <=? n then Some (7 + n) else None
  else if is_prefix (py "https://") aft then
    let n := span is_url_char (skipn 8 aft) in
    if 1 <=? n then Some (8 + n) else None
  else None.

(** NEWLINE_RULE: the pairs of a backslash and [n] ahead. *)
Fixpoint escaped_newlines (x : text) : nat :=
  match x with
  | c :: x' =>
      match x' with
      | d :: x'' =>
          if (92 =? c)%N && (110 =? d)%N then S (escaped_newlines x'') else 0
      | [] => 0
      end
  | [] => 0
  end.

Definition newline_at : matcher := fun _ aft =>
  let n := escaped_newlines aft in
  if 1 <=? n then Some (2 * n) else None.

(** ELIPSES_RULE: two dots or more, the escaped bytes of an ellipsis, or the
    three characters U+00E2 U+20AC U+00A6. *)
Definition elipses_at : matcher := fun _ aft =>
  let n := span (N.eqb 46) aft in
  if 2 <=? n then Some n
  else if is_prefix (py "\xe2\x80\xa6") aft then Some 12
  else if is_prefix [226; 8364; 166]%N aft then Some 3
  else None.

(** DOUBLE_QUOTES and SINGLE_QUOTES: the escaped bytes of a curly quote. *)
Definition double_quote_at : matcher := fun _ aft =>
  if is_prefix (py "\xe2\x80") aft
     && (is_prefix (py "\x9c") (skipn 8 aft)
         || is_prefix (py "\x9d") (skipn 8 aft))
  then Some 12 else None.

Definition single_quote_at : matcher := fun _ aft =>
  if is_prefix (py "\xe2\x80") aft
     && (is_prefix (py "\x98") (skipn 8 aft)
         || is_prefix (py "\x99") (skipn 8 aft))
  then Some 12 else None.

(** OUTER_QUOTES: a quote that begins the text, or one that ends it (a
    newline may still follow). *)
Definition is_quote (x : char) : bool := ((x =? 39) || (x =? 34))%N.

Definition at_end (x : text) : bool :=
  match x with
  | [] => true
  | [c] => (c =? 10)%N
  | _ => false
  end.

Definition outer_quote_at : matcher := fun bef aft =>
  match aft with
  | c :: rest =>
      if is_quote c
         && (match bef with [] => true | _ :: _ => false end || at_end rest)
      then Some 1 else None
  | [] => None
  end.

(** No match of the URL pattern starts anywhere in a text. *)
Fixpoint url_free (u : text) : Prop :=
  match u with
  | [] => True
  | _ :: u' => url_at [] u = None /\ url_free u'
  end.

(** Every run of URL characters that begins [u] begins [t] as well. *)
Definition agree_run (u t : text) : Prop :=
  forall q, forallb is_url_char q = true ->
            is_prefix q u = true -> is_prefix q t = true.

(** A text that does not begin with a URL character. *)
Definition no_run (u : text) : Prop :=
  match u with
  | [] => True
  | c :: _ => is_url_char c = false
  end.

(** One round of [(\\n)]: the two characters, kept as group 1. *)
Definition pair_step (st : Re.mstate) : option Re.mstate :=
  match Re.after st with
  | c :: d :: rest =>
      if (92 =? c)%N && (110 =? d)%N
      then Some (Re.MState (d :: c :: Re.before st) rest
                   ((1, [c; d]) :: Re.groups st))
      else None
  | _ => None
  end.

(** ** Rows without a match *)

(** [old in x] *)
Fixpoint occurs (old x : text) : bool :=
  is_prefix old x
  || match x with
     | [] => false
     | _ :: x' => occurs old x'
     end.

Section Unmatched.

Variable isalnum : char -> bool.
Variable same_case : char -> char -> bool.

Definition sensitivity (case_sensitive : bool)
    : option (char -> char -> bool) :=
  if case_sensitive then None else Some same_case.

(** The patterns a call matches with, each with the way it compares
    letters. *)
Definition patterns (op : operation)
    : list (option (char -> char -> bool) * Re.regex) :=
  match op with
  | Get_hyperlinks | Strip_hyperlink _ => [(None, CleanseText.URLLINK_RULE)]
  | Strip_elipses _ => [(None, CleanseText.ELIPSES_RULE)]
  | Strip_newline => [(None, CleanseText.NEWLINE_RULE)]
  | Strip_quotes =>
      [(None, CleanseText.DOUBLE_QUOTES); (None, CleanseText.SINGLE_QUOTES);
       (None, CleanseText.OUTER_QUOTES)]
  | Strip_whitespace _ =>
      [(None, CleanseText.SPACES); (None, CleanseText.OUTER_SPACES)]
  | Get_emojis _ all_emojis =>
      [(None, if all_emojis then TweetParser.EMOJI_EMOJI_ALL isalnum
              else TweetParser.EMOJI_EMOJI_SET)]
  | Get_hashtags _ | Strip_hashtags _ => [(None, TweetParser.HASHTAG_RULE)]
  | Get_mentions _ | Strip_mentions _ => [(None, TweetParser.MENTION_RULE)]
  | Get_retweets | Strip_retweets _ => [(None, TweetParser.RETWEET_RULE)]
  | Has_hashtags cs => [(sensitivity cs, TweetParser.HASHTAG_RULE)]
  | Has_mentions cs => [(sensitivity cs, TweetParser.MENTION_RULE)]
  | Has_retweets cs => [(sensitivity cs, TweetParser.RETWEET_RULE)]
  | Fix_text | Strip_encoding | Strip_mojibake | Strip_punctuation
  | Count_elements _ => []
  end.

(** Nothing of what a call looks for is in a row: none of its patterns
    matches, the punctuation sequence or the separator does not occur.  The
    calls that look for nothing have no such rows. *)
Definition no_match (op : operation) (x : text) : Prop :=
  match op with
  | Fix_text | Strip_encoding | Strip_mojibake => False
  | Strip_punctuation => occurs CleanseText.punctuation x = false
  | Count_elements sep => occurs sep x = false
  | _ =>
      forall p, In p (patterns op) -> Re.search (fst p) (snd p) x = false
  end.

End Unmatched.

(** The replacement token of a call, if it takes one. *)
Definition token_of (op : operation) : text :=
  match op with
  | Strip_elipses token | Strip_hyperlink token | Strip_whitespace token
  | Strip_hashtags token | Strip_mentions token | Strip_retweets token =>
      token
  | _ => []
  end.

(** What a call yields for a row without a match. *)
Definition unmatched (op : operation) (x : text) : value :=
  match op with
  | Get_hyperlinks | Get_retweets => VList []
  | Get_hashtags sep | Get_mentions sep =>
      match sep with
      | [] => VList []
      | _ :: _ => VText []
      end
  | Get_emojis counts _ => if counts then VCounter [] else VList []
  | Has_hashtags _ | Has_mentions _ | Has_retweets _ => VBool false
  | Count_elements _ =>
      VInt (match x with
            | [] => 0
            | _ :: _ => 1
            end)
  | _ => VText x
  end.

(** A call is a row-wise function [f], the first failing row failing the
    call. *)
Definition rowwise (F : column -> result (list value)) : Prop :=
  exists f, forall col, F col = mapM f col.

(** ** Further matchers and direct readings *)

(** What a scan reports for a match: its length and the text [findall]
    returns for it. *)
Definition finder := text -> text -> option (nat * text).

Fixpoint find_all (f : finder) (skip : nat) (bef x : text) : list text :=
  match x with
  | [] => []
  | c :: x' =>
      match skip with
      | S k => find_all f k (c :: bef) x'
      | O =>
          match f bef x with
          | Some (n, t) => t :: find_all f (n - 1) (c :: bef) x'
          | None => find_all f 0 (c :: bef) x'
          end
      end
  end.

(** A text begins with a handle character. *)
Definition handle_head (u : text) : bool :=
  match u with
  | e :: _ => is_handle e
  | [] => false
  end.

(** HASHTAG_RULE: a [#] and all the handle characters behind it, one at
    least. *)
Definition hashtag_at : matcher := fun _ aft =>
  match aft with
  | c :: rest =>
      if (c =? 35)%N && (1 <=? span is_handle rest)
      then Some (S (span is_handle rest)) else None
  | [] => None
  end.

(** The hashtags of a text: behind every [#] that a handle character
    follows, the whole run of handle characters. *)
Fixpoint hashtags (x : text) : list text :=
  match x with
  | [] => []
  | c :: x' =>
      (if (c =? 35)%N && (1 <=? span is_handle x')
       then [firstn (span is_handle x') x'] else [])
      ++ hashtags x'
  end.

(** No hashtag starts anywhere in a text. *)
Fixpoint tag_free (u : text) : Prop :=
  match u with
  | [] => True
  | _ :: u' => hashtag_at [] u = None /\ tag_free u'
  end.

(** A greedy run of characters of a class that can give characters back:
    the longest run within the bounds first, then shorter ones, until the
    rest of the pattern accepts. *)
Fixpoint give_back (p : char -> bool) (lo : nat) (hi : option nat)
    (k : Re.cont) (i : nat) (bef aft : text) (g : list (nat * text))
    : option Re.mstate :=
  let stop := if lo <=? i then k (Re.MState bef aft g) else None in
  match aft with
  | x :: rest =>
      if Re.below i hi && p x then
        match give_back p lo hi k (S i) (x :: bef) rest g with
        | Some s => Some s
        | None => stop
        end
      else stop
  | [] => stop
  end.

(** RETWEET_RULE: [RT], one whitespace character, [@], a run of 2 to 15
    handle characters and a colon right behind the run; the handle is what
    is reported. *)
Definition retweet_finder : finder := fun _ aft =>
  match aft with
  | r :: t :: s :: a :: rest =>
      if (r =? 82)%N && (t =? 84)%N && Re.is_space s && (a =? 64)%N then
        let n := span is_handle rest in
        match skipn n rest with
        | c :: _ =>
            if (c =? 58)%N && (2 <=? n) && (n <=? 15)
            then Some (5 + n, firstn n rest) else None
        | [] => None
        end
      else None
  | _ => None
  end.


(** A list of matches is not empty. *)
Definition any (l : list text) : bool :=
  match l with
  | [] => false
  | _ :: _ => true
  end.

Definition any_value (v : value) : bool :=
  match v with
  | VList l => any l
  | _ => false
  end.

(** A code point that UTF-8 cannot encode. *)
Definition is_surrogate (c : char) : bool :=
  ((55296 <=? c) && (c <=? 57343))%N.

Definition is_ascii (c : char) : bool := (c <? 128)%N.

(** The characters [get_emojis] looks for: the four ranges of
    EMOJI_EMOJI_SET, or with [all_emojis] whatever is neither a word
    character nor whitespace nor a comma, a full stop or a space. *)
Definition is_emoji (c : char) : bool :=
  in_range 128512 128591 c || in_range 127744 128511 c
  || in_range 128640 128767 c || in_range 127456 127487 c.

Definition emoji_char (isalnum : char -> bool) (all_emojis : bool)
    (c : char) : bool :=
  if all_emojis then
    negb (TweetParser.is_word isalnum c || Re.is_space c
          || (c =? 44)%N || (c =? 46)%N || (c =? 32)%N)
  else is_emoji c.

(** [counter[key]] *)
Fixpoint counter_get (key : text) (c : list (text * nat)) : nat :=
  match c with
  | [] => 0
  | (y, n) :: c' => if text_eqb key y then n else counter_get key c'
  end.

(** How often a text stands in a list. *)
Definition occurrences (key : text) (l : list text) : nat :=
  length (filter (text_eqb key) l).

(** [u] is [x] with some characters left out. *)
Inductive subseq : text -> text -> Prop :=
| subseq_nil : subseq [] []
| subseq_keep : forall c u x, subseq u x -> subseq (c :: u) (c :: x)
| subseq_drop : forall c u x, subseq u x -> subseq u (c :: x).

Definition empty (x : text) : bool :=
  match x with
  | [] => true
  | _ :: _ => false
  end.

(** [x.count(sep)]: the occurrences of [sep] in [x] that do not overlap,
    from the left. *)
Fixpoint count_go (sep : text) (skip : nat) (x : text) : nat :=
  match x with
  | [] => 0
  | _ :: x' =>
      match skip with
      | S n => count_go sep n x'
      | O =>
          if is_prefix sep x then S (count_go sep (length sep - 1) x')
          else count_go sep 0 x'
      end
  end.

Definition str_count (sep x : text) : nat := count_go sep 0 x.

(** SPACES: a whole run of whitespace. *)
Definition spaces_at : matcher := fun _ aft =>
  let n := span Re.is_space aft in
  if 1 <=? n then Some n else None.

(** OUTER_SPACES: a run of whitespace that begins the text, or one that
    ends it. *)
Definition outer_spaces_at : matcher := fun bef aft =>
  let n := span Re.is_space aft in
  if (1 <=? n) && (empty bef || empty (skipn n aft)) then Some n else None.

(** The words of a text: its runs of characters that are no whitespace
    ([cur] is the word being read, last character first). *)
Fixpoint words (cur x : text) : list text :=
  let word :=
    match cur with
    | [] => []
    | _ :: _ => [rev cur]
    end in
  match x with
  | [] => word
  | c :: x' => if Re.is_space c then word ++ words [] x' else words (c :: cur) x'
  end.

(** A text with every run of whitespace made one space; [in_run] says that
    the run at hand has its space already. *)
Fixpoint collapse (in_run : bool) (x : text) : text :=
  match x with
  | [] => []
  | c :: x' =>
      if Re.is_space c
      then (if in_run then [] else [32%N]) ++ collapse true x'
      else c :: collapse false x'
  end.

(** The words of a text behind its first, with a space before each;
    [pending] says that whitespace has been passed since the last word. *)
Fixpoint spaced (pending : bool) (x : text) : text :=
  match x with
  | [] => []
  | c :: x' =>
      if Re.is_space c then spaced true x'
      else (if pending then [32%N] else []) ++ c :: spaced false x'
  end.

(** The text a piece of a scan covers. *)
Definition piece_text (p : Re.piece) : text :=
  match p with
  | Re.Skip c => [c]
  | Re.Hit m _ => m
  end.

(** The methods that replace the matches of one pattern with a token. *)
Definition token_methods : list (text -> column -> result column) :=
  [CleanseText.strip_elipses; CleanseText.strip_hyperlink;
   TweetParser.strip_hashtags; TweetParser.strip_mentions;
   TweetParser.strip_retweets].

(** No escaped newline starts anywhere in a text. *)
Fixpoint newline_free (u : text) : Prop :=
  match u with
  | [] => True
  | _ :: u' => newline_at [] u = None /\ newline_free u'
  end.

Definition head_is (c : char) (u : text) : bool :=
  match u with
  | e :: _ => (c =? e)%N
  | [] => false
  end.

(** * Properties *)

(** ** The patterns of the modules *)

(** Every pattern takes at least one character, so no scan meets an empty
    match, and none has more than one group. *)
Lemma patterns_consume : forall isalnum,
  Forall (fun r => 1 <= Re.width r /\ Re.ngroups r <= 1)
    [CleanseText.DOUBLE_QUOTES; CleanseText.SINGLE_QUOTES;
     CleanseText.ELIPSES_RULE; CleanseText.URLLINK_RULE;
     CleanseText.NEWLINE_RULE; CleanseText.OUTER_QUOTES; CleanseText.SPACES;
     CleanseText.OUTER_SPACES; TweetParser.MENTION_RULE;
     TweetParser.RETWEET_RULE; TweetParser.HASHTAG_RULE;
     TweetParser.EMOJI_EMOJI_SET; TweetParser.EMOJI_EMOJI_ALL isalnum].
Proof.
  intro isalnum. repeat constructor; vm_compute; auto with arith.
Qed.

(** ** Scanning with a matcher *)

Lemma pieces_skip : forall at_ grp x k bef,
  pieces at_ grp k bef x =
  pieces at_ grp 0 (rev (firstn k x) ++ bef) (skipn k x).
Proof.
  induction x as [|c x IH]; intros k bef.
  - destruct k; reflexivity.
  - destruct k as [|k]; [reflexivity|].
    cbn [pieces firstn skipn rev]. rewrite IH, <- app_assoc. reflexivity.
Qed.

(** More fuel than the text is long changes nothing: a scan ends with the
    text. *)
Lemma scan_fuel : forall m f1 f2 bef aft,
  length aft < f1 -> length aft < f2 ->
  Re.scan m f1 bef aft = Re.scan m f2 bef aft.
Proof.
  induction f1 as [|f1 IH]; intros f2 bef aft H1 H2; [lia|].
  destruct f2 as [|f2]; [lia|]. cbn [Re.scan].
  assert (Hon : match aft with
                | [] => []
                | c :: aft' => Re.Skip c :: Re.scan m f1 (c :: bef) aft'
                end =
                match aft with
                | [] => []
                | c :: aft' => Re.Skip c :: Re.scan m f2 (c :: bef) aft'
                end).
  { destruct aft as [|c aft]; [reflexivity|]. f_equal.
    apply IH; cbn in *; lia. }
  destruct (m bef aft) as [s|]; [|exact Hon].
  destruct (length aft - length (Re.after s)) as [|n] eqn:E.
  - now rewrite Hon.
  - f_equal. apply IH; rewrite length_skipn; lia.
Qed.

Lemma length_land : forall n g bef aft,
  n <= length aft ->
  length aft - length (Re.after (land n g bef aft)) = n.
Proof.
  intros n g bef aft H. cbn. rewrite length_skipn. lia.
Qed.

Lemma scan_pieces : forall r at_ grp,
  matches_as r at_ grp ->
  forall fuel bef aft,
    length aft < fuel ->
    Re.scan (Re.match_at None r) fuel bef aft = pieces at_ grp 0 bef aft.
Proof.
  intros r at_ grp [Hm Hn].
  induction fuel as [|fuel IH]; intros bef aft Hf; [lia|].
  cbn [Re.scan]. rewrite Hm.
  destruct (at_ bef aft) as [n|] eqn:E; cbn [option_map].
  - destruct (Hn _ _ _ E) as [H1 H2].
    rewrite length_land by assumption.
    destruct n as [|n]; [lia|].
    destruct aft as [|c aft]; [cbn in H2; lia|].
    cbn [Re.groups land]. rewrite IH.
    + cbn [pieces]. rewrite E. f_equal.
      rewrite (pieces_skip at_ grp aft (S n - 1) (c :: bef)).
      replace (S n - 1) with n by lia.
      cbn [firstn skipn rev]. rewrite <- app_assoc. reflexivity.
    + rewrite length_skipn. cbn in *. lia.
  - destruct aft as [|c aft]; [reflexivity|].
    cbn [pieces]. rewrite E. f_equal. apply IH. cbn in Hf. lia.
Qed.

Lemma finditer_pieces : forall r at_ grp x,
  matches_as r at_ grp ->
  Re.finditer None r x = pieces at_ grp 0 [] x.
Proof.
  intros. unfold Re.finditer. eapply scan_pieces; eauto.
Qed.

(** ** Tokens without a backslash stand for themselves *)

Lemma parse_plain : forall ng token fuel,
  plain token -> length token < fuel ->
  Template.parse ng fuel token = Ok (map Template.TLit token).
Proof.
  induction token as [|c token IH]; intros fuel Hp Hf.
  - destruct fuel; [cbn in Hf; lia | reflexivity].
  - destruct fuel as [|fuel]; [cbn in Hf; lia|].
    cbn [Template.parse].
    assert (Hc : (c =? 92)%N = false).
    { apply N.eqb_neq. intro; subst. apply Hp. now left. }
    rewrite Hc. cbn [negb]. rewrite IH.
    + reflexivity.
    + intro Hin. apply Hp. now right.
    + cbn in Hf. lia.
Qed.

Lemma plain_nil : plain [].
Proof. intros []. Qed.

Lemma plain_one : forall c, c <> 92%N -> plain [c].
Proof. intros c H [E|[]]. congruence. Qed.

Lemma compile_plain : forall ng token,
  plain token -> Template.compile ng token = Ok (map Template.TLit token).
Proof.
  intros. unfold Template.compile. apply parse_plain; auto.
Qed.

Lemma render_plain : forall token m g,
  Template.render (map Template.TLit token) m g = token.
Proof.
  induction token as [|c token IH]; intros m g; [reflexivity|].
  unfold Template.render in *. cbn [map flat_map app]. now rewrite IH.
Qed.

Lemma replaced_pieces : forall at_ grp token x k bef,
  flat_map (replaced (map Template.TLit token)) (pieces at_ grp k bef x) =
  replace_all at_ token k bef x.
Proof.
  induction x as [|c x IH]; intros k bef; [reflexivity|].
  cbn [pieces replace_all]. destruct k as [|k]; [|apply IH].
  destruct (at_ bef (c :: x)); cbn [flat_map replaced].
  - rewrite render_plain, IH. reflexivity.
  - rewrite IH. reflexivity.
Qed.

Lemma sub_replace_all : forall r at_ grp token x,
  matches_as r at_ grp -> plain token ->
  re_sub None r token x = Ok (replace_all at_ token 0 [] x).
Proof.
  intros r at_ grp token x Hm Hp. unfold re_sub.
  rewrite compile_plain by assumption. cbn [bind].
  rewrite (finditer_pieces x Hm), replaced_pieces. reflexivity.
Qed.

Lemma mapM_total : forall A B (f : A -> result B) (g : A -> B) l,
  (forall a, f a = Ok (g a)) -> mapM f l = Ok (map g l).
Proof.
  induction l as [|a l IH]; intros H; cbn; [reflexivity|].
  rewrite H, IH by assumption. reflexivity.
Qed.

Lemma replace_regex_all : forall r at_ grp token col,
  matches_as r at_ grp -> plain token ->
  Series.str_replace_regex r token col =
  Ok (map (replace_all at_ token 0 []) col).
Proof.
  intros. unfold Series.str_replace_regex. apply mapM_total.
  intro x. eapply sub_replace_all; eauto.
Qed.

(** ** Greedy repetition *)

Lemma greedy_ge : forall step fuel hi i st,
  i <= fst (greedy step fuel hi i st).
Proof.
  induction fuel as [|fuel IH]; intros hi i st; cbn; [lia|].
  destruct (Re.below i hi); [|cbn; lia].
  destruct (step st) as [s|]; [|cbn; lia].
  specialize (IH hi (S i) s). lia.
Qed.

Lemma rep_greedy : forall step m lo hi f,
  (forall st k, step st = None -> m st k = None) ->
  (forall st k s, step st = Some s ->
     (lo <= 1 -> k s <> None) -> m st k = k s) ->
  (forall st s, step st = Some s ->
     length (Re.after s) < length (Re.after st)) ->
  forall fuel i st,
    Re.rep_loop m lo hi (fun s => Some (f s)) fuel i st =
    (let (j, s) := greedy step fuel hi i st in
     if lo <=? j then Some (f s) else None).
Proof.
  intros step m lo hi f Hnone Hstep Hprog.
  induction fuel as [|fuel IH]; intros i st; [reflexivity|].
  cbn [Re.rep_loop greedy].
  destruct (Re.below i hi); [|reflexivity].
  destruct (step st) as [s|] eqn:E.
  - pose proof (Hprog _ _ E) as Hp. apply Nat.ltb_lt in Hp.
    pose proof (greedy_ge step fuel hi (S i) s) as Hge.
    rewrite (Hstep _ _ _ E); rewrite Hp, IH.
    + destruct (greedy step fuel hi (S i) s) as [j s']. cbn in Hge.
      destruct (lo <=? j) eqn:L; [reflexivity|].
      apply Nat.leb_gt in L.
      destruct (lo <=? i) eqn:L'; [apply Nat.leb_le in L'; lia|reflexivity].
    + intro H1. destruct (greedy step fuel hi (S i) s) as [j s'].
      cbn in Hge. destruct (lo <=? j) eqn:L; [discriminate|].
      apply Nat.leb_gt in L. lia.
  - rewrite (Hnone _ _ E). reflexivity.
Qed.

Lemma greedy_class : forall p hi aft fuel i bef g,
  length aft < fuel ->
  greedy (class_step p) fuel hi i (Re.MState bef aft g) =
  (i + cap hi i (span p aft),
   land (cap hi i (span p aft)) g bef aft).
Proof.
  intros p hi. induction aft as [|x aft IH]; intros fuel i bef g Hf.
  - destruct fuel; [cbn in Hf; lia|]. cbn.
    assert (C : cap hi i 0 = 0) by (destruct hi; unfold cap; lia).
    rewrite C. destruct (Re.below i hi); cbn; f_equal; lia.
  - destruct fuel as [|fuel]; [cbn in Hf; lia|].
    cbn [greedy class_step Re.after span].
    destruct (Re.below i hi) eqn:B.
    + destruct (p x) eqn:P.
      * unfold Re.advance. cbn [Re.before Re.groups].
        rewrite IH by (cbn in Hf; lia).
        assert (C : cap hi i (S (span p aft)) = S (cap hi (S i) (span p aft))).
        { destruct hi as [h|]; [|reflexivity]. unfold cap.
          unfold Re.below in B. apply Nat.ltb_lt in B. lia. }
        rewrite C. unfold land. cbn [firstn skipn rev].
        rewrite <- app_assoc. f_equal. lia.
      * assert (C : cap hi i 0 = 0) by (destruct hi; unfold cap; lia).
        rewrite C. cbn. f_equal. lia.
    + destruct hi as [h|]; [|discriminate]. unfold Re.below in B.
      apply Nat.ltb_ge in B.
      assert (C : forall n, cap (Some h) i n = 0) by (intro; unfold cap; lia).
      rewrite C. cbn. f_equal. lia.
Qed.

(** A repeated single-character class, followed by a rest that takes
    whatever it is given: the longest run within the bounds. *)
Lemma rep_class : forall p m lo hi f,
  (forall st k, class_step p st = None -> m st k = None) ->
  (forall st k s, class_step p st = Some s ->
     (lo <= 1 -> k s <> None) -> m st k = k s) ->
  forall bef aft g,
    Re.rep_loop m lo hi (fun s => Some (f s)) (S (length aft)) 0
      (Re.MState bef aft g) =
    (let n := cap hi 0 (span p aft) in
     if lo <=? n then Some (f (land n g bef aft)) else None).
Proof.
  intros p m lo hi f Hnone Hstep bef aft g.
  rewrite (@rep_greedy (class_step p) m lo hi f Hnone Hstep).
  - rewrite greedy_class by lia. reflexivity.
  - intros st s. unfold class_step.
    destruct (Re.after st) as [|x rest] eqn:E; [discriminate|].
    destruct (p x); [|discriminate].
    intro H. injection H as <-. cbn. lia.
Qed.

(** ** The patterns match as their matchers say *)

Lemma run_cat : forall ic a b st k,
  Re.run ic (a >> b) st k = Re.run ic a st (fun st' => Re.run ic b st' k).
Proof. reflexivity. Qed.

Lemma run_rep : forall ic lo hi a st k,
  Re.run ic (Re.Rep lo hi a) st k =
  Re.rep_loop (Re.run ic a) lo hi k (S (length (Re.after st))) 0 st.
Proof. reflexivity. Qed.

(** The optional look-behind that opens RETWEET_RULE asserts nothing: with
    or without [RT] and a space before it, the pattern goes on from the
    same position. *)
Lemma optional_look_behind : forall ic a st k,
  Re.run ic (Re.Rep 0 (Some 1) (Re.Behind false a)) st k = k st.
Proof.
  intros ic a st k. rewrite run_rep.
  cbn -[Nat.ltb Nat.leb Nat.eqb Re.width Re.run].
  change (Re.run ic (Re.Behind false a) st) with
    (fun k' : Re.cont =>
       if length (Re.before st) <? Re.width a then None
       else
         match Re.run ic a
                 (Re.MState (skipn (Re.width a) (Re.before st))
                    (rev (firstn (Re.width a) (Re.before st)) ++ Re.after st)
                    (Re.groups st))
                 (fun s => if length (Re.after s) =? length (Re.after st)
                           then Some s else None) with
         | Some s => k' (Re.MState (Re.before st) (Re.after st) (Re.groups s))
         | None => None
         end).
  cbv beta.
  destruct (length (Re.before st) <? Re.width a); [reflexivity|].
  destruct (Re.run ic a _ _); [|reflexivity].
  cbn [Re.after]. rewrite Nat.ltb_irrefl. reflexivity.
Qed.

Lemma span_le : forall p x, span p x <= length x.
Proof.
  induction x as [|c x IH]; cbn; [lia|]. destruct (p c); cbn; lia.
Qed.

Lemma range_one : forall c x : char, in_range c c x = (x =? c)%N.
Proof.
  intros c x. unfold in_range.
  destruct (N.eqb_spec x c) as [->|Hne].
  - now rewrite N.leb_refl.
  - destruct (N.leb_spec c x), (N.leb_spec x c); try reflexivity; lia.
Qed.

Lemma handle_class : forall x,
  Re.set_match None false
    [Re.Range (code "a") (code "z"); Re.Range (code "A") (code "Z");
     Re.Range (code "0") (code "9"); one (code "_")] x = is_handle x.
Proof.
  intro x. unfold Re.set_match, is_handle, one.
  cbn [existsb Re.item_match xorb].
  change (code "_") with 95%N. rewrite <- (range_one 95 x).
  rewrite orb_false_r, !orb_assoc. reflexivity.
Qed.

Lemma run_handle_char : forall st k,
  Re.run None TweetParser.handle_char st k =
  match class_step is_handle st with
  | Some s => k s
  | None => None
  end.
Proof.
  intros st k. unfold TweetParser.handle_char, class_step. cbn [Re.run].
  destruct (Re.after st) as [|x rest]; [reflexivity|].
  rewrite handle_class. destruct (is_handle x); reflexivity.
Qed.

Lemma behind_rt : forall bef aft g k,
  Re.run None (Re.Behind true (Re.lit (py "RT") >> TweetParser.space))
    (Re.MState bef aft g) k =
  if rt_marker bef then None else k (Re.MState bef aft g).
Proof.
  intros bef aft g k.
  destruct bef as [|s [|t [|r bef]]]; try reflexivity.
  cbn -[Re.is_space Nat.eqb N.eqb]. unfold Re.set_match.
  cbn [existsb Re.item_match xorb]. rewrite orb_false_r.
  rewrite (N.eqb_sym 82 r), (N.eqb_sym 84 t).
  destruct (r =? 82)%N; [|reflexivity].
  destruct (t =? 84)%N; [|reflexivity].
  destruct (Re.is_space s); [|reflexivity].
  cbn -[Nat.eqb]. rewrite Nat.eqb_refl. reflexivity.
Qed.

Lemma handle_at_length : forall rest h,
  handle_at rest = Some h ->
  h = firstn (Nat.min (span is_handle rest) 15) rest
  /\ length h = Nat.min (span is_handle rest) 15
  /\ 2 <= span is_handle rest.
Proof.
  unfold handle_at. intros rest h H.
  destruct (2 <=? span is_handle rest) eqn:E; [|discriminate].
  injection H as <-. apply Nat.leb_le in E.
  pose proof (span_le is_handle rest).
  rewrite length_firstn. repeat split; lia.
Qed.

Lemma run_handle : forall bef aft g,
  Re.run None TweetParser.HANDLE_RULE (Re.MState bef aft g) Some =
  match aft with
  | c :: rest =>
      if (c =? 64)%N then
        match handle_at rest with
        | Some h =>
            Some (land (S (length h)) ((1, h) :: g) bef aft)
        | None => None
        end
      else None
  | [] => None
  end.
Proof.
  intros bef aft g. unfold TweetParser.HANDLE_RULE.
  cbn [Re.run Re.after]. destruct aft as [|c rest]; [reflexivity|].
  unfold Re.lit_match. change (code "@") with 64%N.
  rewrite (N.eqb_sym 64 c). destruct (c =? 64)%N; [|reflexivity].
  unfold Re.advance. cbn [Re.before Re.after Re.groups].
  rewrite (@rep_class is_handle (Re.run None TweetParser.handle_char) 2
             (Some 15)
             (Re.capture 1 (Re.MState (c :: bef) rest g))).
  - cbv zeta. unfold cap. rewrite Nat.sub_0_r.
    pose proof (span_le is_handle rest) as Hs.
    unfold handle_at.
    destruct (2 <=? span is_handle rest) eqn:E.
    + apply Nat.leb_le in E.
      assert (E' : (2 <=? Nat.min (span is_handle rest) 15) = true)
        by (apply Nat.leb_le; lia).
      rewrite E'. f_equal. unfold Re.capture, Re.consumed, land.
      cbn [Re.before Re.after Re.groups].
      rewrite length_skipn, length_firstn.
      replace (length rest - (length rest - Nat.min (span is_handle rest) 15))
        with (Nat.min (span is_handle rest) 15) by lia.
      replace (Nat.min (Nat.min (span is_handle rest) 15) (length rest))
        with (Nat.min (span is_handle rest) 15) by lia.
      cbn [firstn skipn rev]. rewrite <- app_assoc. reflexivity.
    + apply Nat.leb_gt in E.
      assert (E' : (2 <=? Nat.min (span is_handle rest) 15) = false)
        by (apply Nat.leb_gt; lia).
      rewrite E'. reflexivity.
  - intros st k H. rewrite run_handle_char, H. reflexivity.
  - intros st k s H _. rewrite run_handle_char, H. reflexivity.
Qed.

Lemma mention_matches :
  matches_as TweetParser.MENTION_RULE (mention_at rt_marker)
    (fun m => [(1, tl m)]).
Proof.
  split.
  - intros bef aft. unfold Re.match_at, TweetParser.MENTION_RULE.
    rewrite run_cat, behind_rt.
    unfold mention_at.
    destruct aft as [|c rest]; [destruct (rt_marker bef); reflexivity|].
    rewrite run_handle.
    destruct (rt_marker bef); [rewrite andb_false_r; reflexivity|].
    rewrite andb_true_r. destruct (c =? 64)%N; [|reflexivity].
    destruct (handle_at rest) as [h|] eqn:E; [|reflexivity].
    cbn [option_map]. apply handle_at_length in E. destruct E as (-> & E & _).
    rewrite E. reflexivity.
  - intros bef aft n H. unfold mention_at in H.
    destruct aft as [|c rest]; [discriminate|].
    destruct ((c =? 64)%N && negb (rt_marker bef)); [|discriminate].
    destruct (handle_at rest) as [h|] eqn:E; [|discriminate].
    injection H as <-. apply handle_at_length in E.
    destruct E as (_ & E & _). pose proof (span_le is_handle rest).
    cbn [length]. lia.
Qed.

(** ** Mentions *)

Lemma handle_not_at : forall c, is_handle c = true -> (c =? 64)%N = false.
Proof.
  intros c H. apply N.eqb_neq. intros ->. discriminate H.
Qed.

Lemma found_mentions : forall x k bef,
  k <= span is_handle x ->
  flat_map (Re.found TweetParser.MENTION_RULE)
    (pieces (mention_at rt_marker) (fun m => [(1, tl m)]) k bef x) =
  mentions rt_marker bef x.
Proof.
  induction x as [|c x IH]; intros k bef Hk; [reflexivity|].
  cbn [pieces mentions]. destruct k as [|k].
  - unfold mention_at at 1.
    destruct ((c =? 64)%N && negb (rt_marker bef)).
    + destruct (handle_at x) as [h|] eqn:E.
      * pose proof (handle_at_length _ E) as (Hh & Hl & _).
        cbn [flat_map]. rewrite IH by lia. f_equal.
        cbn. rewrite Hl, <- Hh. reflexivity.
      * cbn [flat_map Re.found app]. apply IH. lia.
    + cbn [flat_map Re.found app]. apply IH. lia.
  - cbn [span] in Hk. destruct (is_handle c) eqn:Hc; [|lia].
    rewrite (handle_not_at _ Hc). cbn [andb app]. apply IH. lia.
Qed.

Lemma findall_mentions : forall x,
  Re.findall None TweetParser.MENTION_RULE x = mentions rt_marker [] x.
Proof.
  intro x. unfold Re.findall.
  rewrite (finditer_pieces x mention_matches).
  apply found_mentions. lia.
Qed.

Lemma get_mentions_rows : forall col,
  TweetParser.get_mentions [] col =
  map (fun x => VList (mentions rt_marker [] x)) col.
Proof.
  intro col. unfold TweetParser.get_mentions, TweetParser.joined,
    Series.str_findall.
  rewrite map_map. apply map_ext. intro x. now rewrite findall_mentions.
Qed.

(** ** Hyperlinks *)

Lemma is_prefix_app : forall p t,
  is_prefix p t = true -> t = p ++ skipn (length p) t.
Proof.
  induction p as [|c p IH]; intros t H; [reflexivity|].
  destruct t as [|x t]; [discriminate|]. cbn in H.
  apply andb_true_iff in H. destruct H as [H1 H2].
  apply N.eqb_eq in H1. subst. cbn. f_equal. now apply IH.
Qed.

Lemma run_lit : forall s bef aft g k,
  Re.run None (Re.lit s) (Re.MState bef aft g) k =
  if is_prefix s aft then k (land (length s) g bef aft) else None.
Proof.
  induction s as [|c s IH]; intros bef aft g k; [reflexivity|].
  destruct s as [|c' s].
  - cbn [Re.lit Re.run Re.after is_prefix].
    destruct aft as [|x rest]; [reflexivity|].
    unfold Re.lit_match. rewrite andb_true_r.
    destruct (c =? x)%N; reflexivity.
  - change (Re.lit (c :: c' :: s)) with (Re.Lit c >> Re.lit (c' :: s)).
    rewrite run_cat. cbn [Re.run Re.after].
    destruct aft as [|x rest]; [reflexivity|].
    unfold Re.lit_match.
    change (is_prefix (c :: c' :: s) (x :: rest))
      with ((c =? x)%N && is_prefix (c' :: s) rest).
    destruct (c =? x)%N; cbn [andb]; [|reflexivity].
    unfold Re.advance. cbn [Re.before Re.groups]. rewrite IH.
    destruct (is_prefix (c' :: s) rest); [|reflexivity].
    unfold land. cbn [length firstn skipn rev]. rewrite <- app_assoc.
    reflexivity.
Qed.

(** An optional single character, [[c]?]. *)
Lemma run_optional : forall c bef aft g k,
  Re.run None (Re.Rep 0 (Some 1) (Re.In false [one c]))
    (Re.MState bef aft g) k =
  match aft with
  | x :: rest =>
      if (x =? c)%N then
        match k (Re.MState (x :: bef) rest g) with
        | Some s => Some s
        | None => k (Re.MState bef aft g)
        end
      else k (Re.MState bef aft g)
  | [] => k (Re.MState bef aft g)
  end.
Proof.
  intros c bef aft g k. cbn [Re.run Re.after Re.rep_loop Re.below].
  cbn [Nat.ltb Nat.leb]. destruct aft as [|x rest]; [reflexivity|].
  unfold Re.set_match, one. cbn [existsb Re.item_match xorb].
  rewrite orb_false_r. fold (in_range c c x). rewrite range_one.
  destruct (x =? c)%N; [|reflexivity].
  unfold Re.advance. cbn [Re.before Re.after Re.groups length].
  rewrite Nat.leb_refl. reflexivity.
Qed.

Lemma url_class : forall x,
  Re.set_match None false
    [Re.Range (code "a") (code "z"); Re.Range (code "A") (code "Z")] x
  || Re.set_match None false [Re.Range (code "0") (code "9")] x
  || Re.set_match None false
       [Re.Range (code "$") (code "_"); one (code "@"); one (code ".");
        one (code "&"); one (code "+")] x
  || Re.set_match None false
       [one (code "!"); one (code "*"); one (code "("); one (code ")");
        one (code ",")] x
  = is_url_char x.
Proof.
  intro x. unfold Re.set_match, is_url_char, one.
  cbn [existsb Re.item_match xorb].
  repeat match goal with
         | |- context [((code ?a <=? x) && (x <=? code ?a))%N] =>
             change ((code a <=? x) && (x <=? code a))%N
               with (in_range (code a) (code a) x);
             rewrite (range_one (code a) x)
         end.
  rewrite !orb_false_r, !orb_assoc. reflexivity.
Qed.

Lemma percent_in_class : forall x,
  Re.set_match None false
    [Re.Range (code "$") (code "_"); one (code "@"); one (code ".");
     one (code "&"); one (code "+")] x = false ->
  (code "%" =? x)%N = false.
Proof.
  intros x H. apply N.eqb_neq. intros <-. discriminate H.
Qed.

Lemma run_url_char_none : forall st k,
  class_step is_url_char st = None ->
  Re.run None CleanseText.url_char st k = None.
Proof.
  intros st k. unfold class_step, CleanseText.url_char.
  cbn [Re.run]. destruct (Re.after st) as [|x rest]; [reflexivity|].
  rewrite <- url_class. unfold Re.lit_match.
  destruct (Re.set_match _ _ [Re.Range (code "a") _; _] x);
    [discriminate|].
  destruct (Re.set_match _ _ [Re.Range (code "0") _] x); [discriminate|].
  destruct (Re.set_match _ _ [Re.Range (code "$") _; _; _; _; _] x) eqn:E3;
    [discriminate|].
  destruct (Re.set_match _ _ [one (code "!"); _; _; _; _] x); [discriminate|].
  rewrite (percent_in_class _ E3). reflexivity.
Qed.

Lemma run_url_char_some : forall st k s,
  class_step is_url_char st = Some s -> k s <> None ->
  Re.run None CleanseText.url_char st k = k s.
Proof.
  intros st k s. unfold class_step, CleanseText.url_char.
  cbn [Re.run]. destruct (Re.after st) as [|x rest]; [discriminate|].
  rewrite <- url_class. unfold Re.lit_match. intros H Hk.
  destruct (Re.set_match _ _ [Re.Range (code "a") _; _] x).
  { injection H as <-. destruct (k _); [reflexivity|contradiction]. }
  destruct (Re.set_match _ _ [Re.Range (code "0") _] x).
  { injection H as <-. destruct (k _); [reflexivity|contradiction]. }
  destruct (Re.set_match _ _ [Re.Range (code "$") _; _; _; _; _] x).
  { injection H as <-. destruct (k _); [reflexivity|contradiction]. }
  destruct (Re.set_match _ _ [one (code "!"); _; _; _; _] x).
  { injection H as <-. destruct (k _); [reflexivity|contradiction]. }
  discriminate H.
Qed.

Lemma run_url_chars : forall bef aft g,
  Re.run None (Re.Rep 1 None CleanseText.url_char) (Re.MState bef aft g) Some
  = (let n := span is_url_char aft in
     if 1 <=? n then Some (land n g bef aft) else None).
Proof.
  intros bef aft g. cbn [Re.run Re.after].
  rewrite (@rep_class is_url_char (Re.run None CleanseText.url_char) 1 None
             (fun s => s)).
  - reflexivity.
  - intros. now apply run_url_char_none.
  - intros st k s H Hk. apply run_url_char_some; auto.
Qed.

(** Literals of the source as code points. *)
Ltac literals :=
  repeat match goal with
         | |- context [py ?s] =>
             let v := eval vm_compute in (py s) in change (py s) with v
         | |- context [code ?a] =>
             let v := eval vm_compute in (code a) in change (code a) with v
         | H : context [py ?s] |- _ =>
             let v := eval vm_compute in (py s) in change (py s) with v in H
         end.
Lemma url_matches : matches_as CleanseText.URLLINK_RULE url_at (fun _ => []).
Proof.
  split.
  - intros bef aft. unfold Re.match_at, CleanseText.URLLINK_RULE, url_at.
    rewrite run_cat, run_lit.
    destruct (is_prefix (py "http://") aft) eqn:A.
    + apply is_prefix_app in A. remember (skipn (length (py "http://")) aft) as rest eqn:R.
      clear R. subst aft. literals.
      unfold land; cbn [app is_prefix N.eqb Pos.eqb andb length firstn skipn rev].
      rewrite run_cat, run_optional. cbn [N.eqb Pos.eqb].
      rewrite run_cat, run_lit.
      unfold land; cbn [app is_prefix N.eqb Pos.eqb andb length firstn skipn rev].
      rewrite run_url_chars. cbv zeta.
      destruct (1 <=? span is_url_char rest); [|reflexivity].
      cbn [option_map]. unfold land. cbn [Nat.add firstn skipn rev].
      rewrite <- !app_assoc. reflexivity.
    + destruct (is_prefix (py "https://") aft) eqn:B.
      * apply is_prefix_app in B. remember (skipn (length (py "https://")) aft) as rest eqn:R.
      clear R. subst aft. literals.
      unfold land; cbn [app is_prefix N.eqb Pos.eqb andb length firstn skipn rev].
      rewrite run_cat, run_optional. cbn [N.eqb Pos.eqb].
      rewrite !run_cat, !run_lit.
      unfold land; cbn [app is_prefix N.eqb Pos.eqb andb length firstn skipn rev].
      rewrite run_url_chars. cbv zeta.
      destruct (1 <=? span is_url_char rest); [|reflexivity].
      cbn [option_map]. unfold land. cbn [Nat.add firstn skipn rev].
      rewrite <- !app_assoc. reflexivity.
      * destruct (is_prefix (py "http") aft) eqn:H4; [|reflexivity].
        apply is_prefix_app in H4.
        remember (skipn (length (py "http")) aft) as a1 eqn:R.
        clear R. subst aft. literals.
        unfold land; cbn [app length firstn skipn rev].
        rewrite run_cat, run_optional.
        destruct a1 as [|x r].
        -- rewrite run_cat, run_lit. reflexivity.
        -- rewrite !run_cat, !run_lit. literals.
           match goal with
           | |- context [is_prefix ?p (x :: r)] =>
               change (is_prefix p (x :: r) = false) in A
           end.
           rewrite A.
           destruct (x =? 115)%N eqn:X; [|reflexivity].
           apply N.eqb_eq in X. subst x.
           match goal with
           | |- context [is_prefix ?p r] =>
               change (is_prefix p r = false) in B
           end.
           rewrite B. reflexivity.
  - intros bef aft n. unfold url_at.
    destruct (is_prefix (py "http://") aft) eqn:A.
    + apply is_prefix_app in A. remember (skipn (length (py "http://")) aft) as rest eqn:R.
      clear R. subst aft. literals. cbn [app skipn length].
      pose proof (span_le is_url_char rest).
      destruct (1 <=? span is_url_char rest) eqn:E; [|discriminate].
      apply Nat.leb_le in E. intro H'; injection H' as <-. lia.
    + destruct (is_prefix (py "https://") aft) eqn:B; [|discriminate].
      apply is_prefix_app in B. remember (skipn (length (py "https://")) aft) as rest eqn:R.
      clear R. subst aft. literals. cbn [app skipn length].
      pose proof (span_le is_url_char rest).
      destruct (1 <=? span is_url_char rest) eqn:E; [|discriminate].
      apply Nat.leb_le in E. intro H'; injection H' as <-. lia.
Qed.

Lemma url_at_span : forall b aft n,
  url_at b aft = Some n -> n = span is_url_char aft /\ 1 <= n.
Proof.
  intros b aft n. unfold url_at.
  destruct (is_prefix (py "http://") aft) eqn:A.
  - apply is_prefix_app in A.
    remember (skipn (length (py "http://")) aft) as rest eqn:R.
    clear R. subst aft. literals. cbn [app skipn].
    destruct (1 <=? span is_url_char rest) eqn:E; [|discriminate].
    intro H; injection H as <-. split; [reflexivity|lia].
  - destruct (is_prefix (py "https://") aft) eqn:B; [|discriminate].
    apply is_prefix_app in B.
    remember (skipn (length (py "https://")) aft) as rest eqn:R.
    clear R. subst aft. literals. cbn [app skipn].
    destruct (1 <=? span is_url_char rest) eqn:E; [|discriminate].
    intro H; injection H as <-. split; [reflexivity|lia].
Qed.

Lemma span_pos : forall p x,
  1 <= span p x -> exists c x', x = c :: x' /\ p c = true.
Proof.
  intros p [|c x'] H; cbn in H; [lia|].
  destruct (p c) eqn:E; [|lia]. eauto.
Qed.

Lemma url_mono : forall u t b b' n,
  agree_run u t -> url_at b u = Some n -> url_at b' t <> None.
Proof.
  intros u t b b' n Hag. unfold url_at at 1.
  destruct (is_prefix (py "http://") u) eqn:A.
  - apply is_prefix_app in A.
    remember (skipn (length (py "http://")) u) as rest eqn:R. clear R.
    subst u. literals. cbn [app skipn].
    destruct (1 <=? span is_url_char rest) eqn:E; [|discriminate].
    intros _. apply Nat.leb_le, span_pos in E.
    destruct E as (c & rest' & -> & Hc).
    specialize (Hag ([104; 116; 116; 112; 58; 47; 47] ++ [c])%N).
    cbn [app forallb is_prefix] in Hag.
    rewrite !N.eqb_refl, Hc in Hag. specialize (Hag eq_refl eq_refl).
    apply (is_prefix_app ([104; 116; 116; 112; 58; 47; 47; c])%N) in Hag.
    rewrite Hag. unfold url_at. literals.
    cbn [app is_prefix length skipn span]. rewrite !N.eqb_refl, Hc.
    discriminate.
  - destruct (is_prefix (py "https://") u) eqn:B; [|discriminate].
    apply is_prefix_app in B.
    remember (skipn (length (py "https://")) u) as rest eqn:R. clear R.
    subst u. literals. cbn [app skipn].
    destruct (1 <=? span is_url_char rest) eqn:E; [|discriminate].
    intros _. apply Nat.leb_le, span_pos in E.
    destruct E as (c & rest' & -> & Hc).
    specialize (Hag ([104; 116; 116; 112; 115; 58; 47; 47] ++ [c])%N).
    cbn [app forallb is_prefix] in Hag.
    rewrite !N.eqb_refl, Hc in Hag. specialize (Hag eq_refl eq_refl).
    apply (is_prefix_app ([104; 116; 116; 112; 115; 58; 47; 47; c])%N) in Hag.
    rewrite Hag. unfold url_at. literals.
    cbn [app is_prefix length skipn span]. rewrite !N.eqb_refl, Hc.
    discriminate.
Qed.

Lemma no_run_agree : forall u t, no_run u -> agree_run u t.
Proof.
  intros u t Hn q Hq Hp. destruct q as [|c q]; [reflexivity|].
  destruct u as [|x u]; [discriminate|]. cbn in Hn, Hq, Hp.
  apply andb_true_iff in Hq, Hp. destruct Hq as [Hq _], Hp as [Hp _].
  apply N.eqb_eq in Hp. subst. congruence.
Qed.

Lemma agree_cons : forall c u t, agree_run u t -> agree_run (c :: u) (c :: t).
Proof.
  intros c u t H q Hq Hp. destruct q as [|c' q]; [reflexivity|].
  cbn in *. apply andb_true_iff in Hq, Hp.
  destruct Hq as [_ Hq], Hp as [Hc Hp]. rewrite Hc. cbn. now apply H.
Qed.

(** Behind a whole run of URL characters the text goes on with another
    character, which stays. *)
Lemma strip_run : forall t bef,
  no_run (replace_all url_at [] (span is_url_char t) bef t).
Proof.
  induction t as [|c t IH]; intro bef; [exact I|].
  cbn [span]. destruct (is_url_char c) eqn:Hc.
  - cbn [replace_all]. apply IH.
  - cbn [replace_all].
    destruct (url_at bef (c :: t)) as [n|] eqn:E.
    + apply url_at_span in E. cbn [span] in E. rewrite Hc in E. lia.
    + exact Hc.
Qed.

Lemma strip_agree : forall t bef,
  agree_run (replace_all url_at [] 0 bef t) t.
Proof.
  induction t as [|c t IH]; intro bef.
  - intros q _ H. exact H.
  - cbn [replace_all]. destruct (url_at bef (c :: t)) as [n|] eqn:E.
    + apply url_at_span in E. destruct E as [-> Hn]. cbn [span] in *.
      destruct (is_url_char c); [|lia].
      cbn [app]. replace (S (span is_url_char t) - 1)
        with (span is_url_char t) by lia.
      apply no_run_agree, strip_run.
    + apply agree_cons, IH.
Qed.

Lemma strip_url_free : forall t skip bef,
  url_free (replace_all url_at [] skip bef t).
Proof.
  induction t as [|c t IH]; intros skip bef; [exact I|].
  cbn [replace_all]. destruct skip as [|k]; [|apply IH].
  destruct (url_at bef (c :: t)) as [n|] eqn:E; [apply IH|].
  cbn [url_free]. split; [|apply IH].
  destruct (url_at [] (c :: replace_all url_at [] 0 (c :: bef) t))
    as [n|] eqn:E'; [|reflexivity].
  exfalso. eapply url_mono; [| exact E' | exact E].
  apply agree_cons, strip_agree.
Qed.

Lemma url_free_found : forall u grp bef,
  url_free u ->
  flat_map (Re.found CleanseText.URLLINK_RULE) (pieces url_at grp 0 bef u)
  = [].
Proof.
  induction u as [|c u IH]; intros grp bef H; [reflexivity|].
  destruct H as [H1 H2]. cbn [pieces].
  change (url_at bef (c :: u)) with (url_at [] (c :: u)). rewrite H1.
  cbn [flat_map Re.found app]. now apply IH.
Qed.

Lemma findall_stripped : forall x,
  Re.findall None CleanseText.URLLINK_RULE (replace_all url_at [] 0 [] x)
  = [].
Proof.
  intro x. unfold Re.findall.
  rewrite (finditer_pieces _ url_matches).
  apply url_free_found, strip_url_free.
Qed.

(** C4: for every column, [strip_hyperlink] with the empty token succeeds,
    and [get_hyperlinks] finds no link in any row of what it returns: no
    match of the URL pattern survives the removal, and the removal creates
    none. *)
Theorem strip_then_get_hyperlinks : forall col,
  exists stripped,
    CleanseText.strip_hyperlink [] col = Ok stripped
    /\ CleanseText.get_hyperlinks stripped = map (fun _ => []) col.
Proof.
  intro col. exists (map (replace_all url_at [] 0 []) col). split.
  - unfold CleanseText.strip_hyperlink.
    apply (replace_regex_all col url_matches plain_nil).
  - unfold CleanseText.get_hyperlinks, Series.str_findall.
    rewrite map_map. apply map_ext. intro x. apply findall_stripped.
Qed.

(** ** Escaped newlines, ellipses and quotes *)

Lemma firstn_length_app : forall (p rest : text),
  firstn (length p) (p ++ rest) = p.
Proof.
  induction p as [|c p IH]; intro rest; cbn; [|rewrite IH]; reflexivity.
Qed.

Lemma capture_app : forall i p rest b g b' g',
  Re.capture i (Re.MState b (p ++ rest) g) (Re.MState b' rest g') =
  Re.MState b' rest ((i, p) :: g').
Proof.
  intros. unfold Re.capture, Re.consumed. cbn [Re.before Re.after Re.groups].
  rewrite length_app.
  replace (length p + length rest - length rest) with (length p) by lia.
  now rewrite firstn_length_app.
Qed.

Lemma capture_land : forall i n bef aft g g' b,
  n <= length aft ->
  Re.capture i (Re.MState b aft g) (land n g' bef aft) =
  land n ((i, firstn n aft) :: g') bef aft.
Proof.
  intros. unfold Re.capture, Re.consumed, land.
  cbn [Re.before Re.after Re.groups]. rewrite length_skipn.
  replace (length aft - (length aft - n)) with n by lia. reflexivity.
Qed.

Lemma is_prefix_length : forall p t,
  is_prefix p t = true -> length p <= length t.
Proof.
  intros p t H. apply is_prefix_app in H.
  rewrite H, length_app. lia.
Qed.

Lemma run_newline_pair : forall st k,
  Re.run None (Re.Group 1 (Re.lit (py "\n"))) st k =
  match pair_step st with
  | Some s => k s
  | None => None
  end.
Proof.
  intros [bef aft g] k. cbn [Re.run]. rewrite run_lit. literals.
  unfold pair_step. cbn [Re.after Re.before Re.groups].
  destruct aft as [|c [|d rest]]; try reflexivity.
  - cbn [is_prefix]. now rewrite andb_false_r.
  - cbn [is_prefix]. rewrite andb_true_r.
    destruct ((92 =? c)%N && (110 =? d)%N); [|reflexivity].
    unfold land. cbn [length firstn skipn rev app].
    now rewrite (capture_app 1 [c; d] rest).
Qed.

Lemma escaped_newlines_le : forall fuel x,
  length x < fuel -> 2 * escaped_newlines x <= length x.
Proof.
  induction fuel as [|fuel IH]; intros x H; [lia|].
  destruct x as [|c [|d x]]; cbn [escaped_newlines length]; try lia.
  destruct ((92 =? c)%N && (110 =? d)%N); [|lia].
  cbn [length] in H. specialize (IH x). lia.
Qed.

Lemma repeat_app_cons : forall A (a : A) n l,
  repeat a n ++ a :: l = a :: repeat a n ++ l.
Proof.
  induction n as [|n IH]; intro l; cbn; [|rewrite IH]; reflexivity.
Qed.

Lemma greedy_pairs : forall fuel aft i bef g,
  length aft < fuel ->
  greedy pair_step fuel None i (Re.MState bef aft g) =
  (i + escaped_newlines aft,
   land (2 * escaped_newlines aft)
     (repeat (1, py "\n") (escaped_newlines aft) ++ g) bef aft).
Proof.
  induction fuel as [|fuel IH]; intros aft i bef g H; [lia|].
  cbn [greedy Re.below]. unfold pair_step.
  cbn [Re.after Re.before Re.groups].
  destruct aft as [|c [|d rest]];
    try (cbn; f_equal; lia).
  cbn [escaped_newlines].
  destruct ((92 =? c)%N && (110 =? d)%N) eqn:E.
  - apply andb_true_iff in E. destruct E as [Ec Ed].
    apply N.eqb_eq in Ec, Ed. subst c d.
    rewrite IH by (cbn in H; lia).
    f_equal; [lia|].
    replace (2 * S (escaped_newlines rest))
      with (S (S (2 * escaped_newlines rest))) by lia.
    unfold land. cbn [firstn skipn rev repeat].
    change (py "\n") with [92; 110]%N.
    rewrite repeat_app_cons, <- !app_assoc. reflexivity.
  - cbn. f_equal. lia.
Qed.

Lemma newline_matches :
  matches_as CleanseText.NEWLINE_RULE newline_at
    (fun m => repeat (1, py "\n") (length m / 2)).
Proof.
  split.
  - intros bef aft. unfold Re.match_at, CleanseText.NEWLINE_RULE, newline_at.
    rewrite run_rep. cbn [Re.after].
    rewrite (@rep_greedy pair_step
               (Re.run None (Re.Group 1 (Re.lit (py "\n")))) 1 None
               (fun s => s)).
    + rewrite greedy_pairs by lia. cbn [Nat.add].
      pose proof (@escaped_newlines_le (S (length aft)) aft) as Hle.
      destruct (1 <=? escaped_newlines aft); [|reflexivity].
      cbn [option_map]. rewrite app_nil_r, length_firstn.
      replace (Nat.min (2 * escaped_newlines aft) (length aft))
        with (escaped_newlines aft * 2) by lia.
      rewrite Nat.div_mul by lia. reflexivity.
    + intros st k H. rewrite run_newline_pair, H. reflexivity.
    + intros st k s H _. rewrite run_newline_pair, H. reflexivity.
    + intros [b a g] s. unfold pair_step. cbn [Re.after].
      destruct a as [|c [|d rest]]; try discriminate.
      destruct ((92 =? c)%N && (110 =? d)%N); [|discriminate].
      intro H. injection H as <-. cbn. lia.
  - intros bef aft n. unfold newline_at.
    pose proof (@escaped_newlines_le (S (length aft)) aft) as Hle.
    destruct (1 <=? escaped_newlines aft) eqn:E; [|discriminate].
    apply Nat.leb_le in E. intro H. injection H as <-. lia.
Qed.

Lemma run_alt : forall ic a b st k,
  Re.run ic (Re.Alt a b) st k =
  match Re.run ic a st k with
  | Some s => Some s
  | None => Re.run ic b st k
  end.
Proof. reflexivity. Qed.

Lemma run_group : forall ic n a st k,
  Re.run ic (Re.Group n a) st k =
  Re.run ic a st (fun st' => k (Re.capture n st st')).
Proof. reflexivity. Qed.

Lemma run_dot : forall st k,
  Re.run None (Re.Lit (code ".")) st k =
  match class_step (N.eqb 46) st with
  | Some s => k s
  | None => None
  end.
Proof.
  intros st k. cbn [Re.run]. unfold class_step, Re.lit_match.
  destruct (Re.after st) as [|x rest]; [reflexivity|].
  change (code ".") with 46%N. destruct (46 =? x)%N; reflexivity.
Qed.

Lemma elipses_matches :
  matches_as CleanseText.ELIPSES_RULE elipses_at (fun m => [(1, m)]).
Proof.
  split.
  - intros bef aft. unfold Re.match_at, CleanseText.ELIPSES_RULE, elipses_at.
    rewrite run_group, !run_alt, run_rep, !run_lit. cbn [Re.after].
    rewrite (@rep_class (N.eqb 46) (Re.run None (Re.Lit (code "."))) 2 None
               (Re.capture 1 (Re.MState bef aft []))).
    + cbv zeta. unfold cap.
      pose proof (span_le (N.eqb 46) aft) as Hs.
      destruct (2 <=? span (N.eqb 46) aft).
      { cbn [option_map]. now rewrite capture_land. }
      destruct (is_prefix (py "\xe2\x80\xa6") aft) eqn:A.
      { apply is_prefix_length in A. cbn [option_map].
        now rewrite capture_land. }
      destruct (is_prefix [226; 8364; 166]%N aft) eqn:B; [|reflexivity].
      apply is_prefix_length in B. cbn [option_map].
      now rewrite capture_land.
    + intros st k H. rewrite run_dot, H. reflexivity.
    + intros st k s H _. rewrite run_dot, H. reflexivity.
  - intros bef aft n. unfold elipses_at.
    pose proof (span_le (N.eqb 46) aft) as Hs.
    destruct (2 <=? span (N.eqb 46) aft) eqn:E.
    { apply Nat.leb_le in E. intro H. injection H as <-. lia. }
    destruct (is_prefix (py "\xe2\x80\xa6") aft) eqn:A.
    { apply is_prefix_length in A. intro H. injection H as <-.
      cbn in A. lia. }
    destruct (is_prefix [226; 8364; 166]%N aft) eqn:B; [|discriminate].
    apply is_prefix_length in B. intro H. injection H as <-. cbn in B. lia.
Qed.

Lemma escaped_quote_matches : forall a b,
  length a = 4 -> length b = 4 ->
  matches_as
    (Re.lit (py "\xe2\x80") >> Re.Group 1 (Re.Alt (Re.lit a) (Re.lit b)))
    (fun _ aft =>
       if is_prefix (py "\xe2\x80") aft
          && (is_prefix a (skipn 8 aft) || is_prefix b (skipn 8 aft))
       then Some 12 else None)
    (fun m => [(1, skipn 8 m)]).
Proof.
  intros a b La Lb. split.
  - intros bef aft. unfold Re.match_at.
    rewrite run_cat, run_lit.
    destruct (is_prefix (py "\xe2\x80") aft) eqn:P; [|reflexivity].
    apply is_prefix_app in P.
    remember (skipn (length (py "\xe2\x80")) aft) as a1 eqn:R. clear R.
    subst aft. literals. unfold land at 1.
    cbn [length app firstn skipn rev andb is_prefix].
    rewrite run_group, run_alt, !run_lit.
    destruct (is_prefix a a1) eqn:A.
    + cbn [orb option_map]. rewrite capture_land
        by (apply is_prefix_length in A; lia).
      rewrite La. unfold land. cbn [firstn skipn rev app].
      rewrite <- !app_assoc. reflexivity.
    + cbn [orb]. destruct (is_prefix b a1) eqn:B; [|reflexivity].
      cbn [option_map]. rewrite capture_land
        by (apply is_prefix_length in B; lia).
      rewrite Lb. unfold land. cbn [firstn skipn rev app].
      rewrite <- !app_assoc. reflexivity.
  - intros bef aft n H.
    destruct (is_prefix (py "\xe2\x80") aft) eqn:P; [|discriminate].
    cbn [andb] in H.
    assert (L : 4 <= length (skipn 8 aft)).
    { destruct (is_prefix a (skipn 8 aft)) eqn:A.
      - apply is_prefix_length in A. lia.
      - destruct (is_prefix b (skipn 8 aft)) eqn:B; [|discriminate].
        apply is_prefix_length in B. lia. }
    destruct (is_prefix a (skipn 8 aft) || is_prefix b (skipn 8 aft));
      [|discriminate].
    injection H as <-. rewrite length_skipn in L. lia.
Qed.

Lemma double_quote_matches :
  matches_as CleanseText.DOUBLE_QUOTES double_quote_at
    (fun m => [(1, skipn 8 m)]).
Proof. apply escaped_quote_matches; reflexivity. Qed.

Lemma single_quote_matches :
  matches_as CleanseText.SINGLE_QUOTES single_quote_at
    (fun m => [(1, skipn 8 m)]).
Proof. apply escaped_quote_matches; reflexivity. Qed.

Lemma quote_class : forall x,
  Re.set_match None false [one 39; one 34] x = is_quote x.
Proof.
  intro x. unfold Re.set_match, is_quote, one.
  cbn [existsb Re.item_match xorb].
  change ((39 <=? x) && (x <=? 39))%N with (in_range 39 39 x).
  change ((34 <=? x) && (x <=? 34))%N with (in_range 34 34 x).
  rewrite !range_one, orb_false_r. reflexivity.
Qed.

Lemma outer_quote_matches :
  matches_as CleanseText.OUTER_QUOTES outer_quote_at (fun m => [(1, m)]).
Proof.
  split.
  - intros bef aft. unfold Re.match_at, CleanseText.OUTER_QUOTES,
      CleanseText.quote, outer_quote_at.
    rewrite run_group, run_alt, !run_cat.
    cbn [Re.run Re.before Re.after].
    destruct aft as [|c rest].
    + destruct bef; reflexivity.
    + rewrite quote_class. unfold Re.advance.
      cbn [Re.before Re.after Re.groups].
      destruct (is_quote c); cbn [andb].
      * rewrite (capture_app 1 [c] rest).
        destruct bef as [|b bef]; cbn [orb option_map].
        -- reflexivity.
        -- unfold at_end. destruct rest as [|x [|y rest]]; try reflexivity.
           destruct (x =? 10)%N; reflexivity.
      * destruct bef; reflexivity.
  - intros bef aft n. unfold outer_quote_at.
    destruct aft as [|c rest]; [discriminate|].
    destruct (is_quote c && _); [|discriminate].
    intro H. injection H as <-. cbn. lia.
Qed.

(** ** Claims about mentions *)

(** C1, as stated, fails: the claim takes the marker to be [R], [T] and a
    space, but the pattern [(?<!RT\s)] rules out any whitespace character
    after [RT].  On the row [RT<tab>@alice] (9 is the tab) the handle is not
    behind [RT] and a space, so the claim lists it, and [get_mentions]
    returns no mention. *)
Lemma get_mentions_after_tab :
  TweetParser.get_mentions [] [py "RT" ++ [9%N] ++ py "@alice"] = [VList []]
  /\ mentions rt_space [] (py "RT" ++ [9%N] ++ py "@alice") = [py "alice"].
Proof. split; vm_compute; reflexivity. Qed.

(** C1, amended: for every column, [get_mentions] (with its default
    separator) returns for each row the list of the handles (2 to 15
    characters of [[a-zA-Z0-9_]]) after every [@] that is not immediately
    preceded by [RT] and one whitespace character; on the row
    [RT @alice: great day @bob] it returns [bob] only. *)
Theorem get_mentions_spec :
  (forall col,
      TweetParser.get_mentions [] col =
      map (fun x => VList (mentions rt_marker [] x)) col)
  /\ TweetParser.get_mentions [] [py "RT @alice: great day @bob"] =
     [VList [py "bob"]].
Proof.
  split; [apply get_mentions_rows | vm_compute; reflexivity].
Qed.

Lemma mentions_suffix : forall marker pre bef x m,
  In m (mentions marker (rev pre ++ bef) x) ->
  In m (mentions marker bef (pre ++ x)).
Proof.
  induction pre as [|c pre IH]; intros bef x m H; [exact H|].
  cbn [app mentions]. apply in_or_app. right. apply IH.
  cbn [rev] in H. now rewrite <- app_assoc in H.
Qed.

Lemma mentions_short : forall marker x bef m,
  In m (mentions marker bef x) -> 2 <= length m <= 15.
Proof.
  induction x as [|c x IH]; intros bef m H; [destruct H|].
  cbn [mentions] in H. apply in_app_or in H. destruct H as [H|H].
  - destruct ((c =? 64)%N && negb (marker bef)); [|destruct H].
    destruct (handle_at x) as [h|] eqn:E; [|destruct H].
    destruct H as [<-|[]]. apply handle_at_length in E. lia.
  - eapply IH, H.
Qed.

Lemma span_app_ge : forall p h rest,
  forallb p h = true -> length h <= span p (h ++ rest).
Proof.
  induction h as [|c h IH]; intros rest H; cbn; [lia|].
  cbn in H. apply andb_true_iff in H. destruct H as [Hc Hh].
  rewrite Hc. specialize (IH rest Hh). lia.
Qed.

(** C10, as stated, fails where the over-long handle follows the retweet
    marker: the row [RT @abcdefghijklmnopq] holds a handle of 17 characters
    and [get_mentions] yields nothing for it, neither whole nor cut. *)
Lemma long_handle_after_marker :
  TweetParser.get_mentions [] [py "RT @abcdefghijklmnopq"] = [VList []].
Proof. vm_compute. reflexivity. Qed.

(** C10, amended: where an [@] that [RT] and a whitespace character do not
    precede is followed by more than 15 handle characters, the mentions of
    the row hold the first 15 of them, and no mention is longer than 15
    characters (so the handle is neither passed over nor returned whole). *)
Theorem long_handle_truncated : forall pre h rest,
  forallb is_handle h = true ->
  15 < length h ->
  rt_marker (rev pre) = false ->
  exists found,
    TweetParser.get_mentions [] [pre ++ 64%N :: h ++ rest] = [VList found]
    /\ In (firstn 15 h) found
    /\ (forall m, In m found -> length m <= 15).
Proof.
  intros pre h rest Hh Hl Hm.
  exists (mentions rt_marker [] (pre ++ 64%N :: h ++ rest)).
  split; [|split].
  - now rewrite get_mentions_rows.
  - apply mentions_suffix. rewrite app_nil_r. cbn [mentions].
    rewrite N.eqb_refl, Hm. cbn [andb negb].
    pose proof (span_app_ge is_handle h rest Hh) as Hs.
    unfold handle_at.
    assert (E : (2 <=? span is_handle (h ++ rest)) = true)
      by (apply Nat.leb_le; lia).
    rewrite E.
    replace (Nat.min (span is_handle (h ++ rest)) 15) with 15 by lia.
    rewrite firstn_app.
    replace (15 - length h) with 0 by lia.
    cbn [firstn]. rewrite app_nil_r. now left.
  - intros m H. apply mentions_short in H. lia.
Qed.

Lemma long_handle_truncated_example :
  (forallb is_handle (py "abcdefghijklmnopq") = true
   /\ 15 < length (py "abcdefghijklmnopq")
   /\ rt_marker (rev []) = false)
  /\ exists found,
       TweetParser.get_mentions []
         [[] ++ 64%N :: py "abcdefghijklmnopq" ++ []] = [VList found]
       /\ In (firstn 15 (py "abcdefghijklmnopq")) found
       /\ (forall m, In m found -> length m <= 15).
Proof.
  split.
  - repeat split; vm_compute; auto with arith.
  - apply (@long_handle_truncated [] (py "abcdefghijklmnopq") []).
    + reflexivity.
    + vm_compute. auto with arith.
    + reflexivity.
Defined.

Lemma long_handle_value :
  TweetParser.get_mentions [] [py "@abcdefghijklmnopq"] =
  [VList [py "abcdefghijklmno"]].
Proof. vm_compute. reflexivity. Qed.

(** ** Claims about the cleansing methods *)

(** C2: the code keeps every single punctuation character.  The literal
    replacement looks for the six characters [+_:!,.] in a row and for
    nothing else, so the row [a+b_c:d!e,f.g] comes back as it is, and only
    a row that holds the whole sequence loses it. *)
Theorem strip_punctuation_whole_sequence_only :
  CleanseText.strip_punctuation [py "a+b_c:d!e,f.g"] = [py "a+b_c:d!e,f.g"]
  /\ CleanseText.strip_punctuation [py "x+_:!,.y"] = [py "xy"].
Proof. split; vm_compute; reflexivity. Qed.

(** C3: with the separator [;], [count_elements] gives 3 for the row
    [a;b;c] and 0 for the empty row. *)
Theorem count_elements_examples :
  TweetParser.count_elements (py ";") [py "a;b;c"] = Ok [3]
  /\ TweetParser.count_elements (py ";") [[]] = Ok [0].
Proof. split; vm_compute; reflexivity. Qed.

(** C5, as stated, fails: the pattern is the raw string [(\\n)+], a
    backslash followed by [n], not the newline character U+000A.  The row
    [a], U+000A, U+000A, [b] is returned unchanged, not as [a b]. *)
Lemma strip_newline_keeps_line_feeds :
  CleanseText.strip_newline [[97; 10; 10; 98]%N] = Ok [[97; 10; 10; 98]%N]
  /\ CleanseText.strip_newline [[97; 10; 10; 98]%N] <> Ok [py "a b"].
Proof. split; vm_compute; [reflexivity | discriminate]. Qed.

(** C5, amended: for every text value, [strip_newline] replaces each
    maximal run of the two-character sequence backslash, [n] with one space
    (the method takes no token) and keeps every other character, U+000A
    included; the row [a\n\nb], written with backslashes, becomes [a b]. *)
Theorem strip_newline_spec :
  (forall col,
      CleanseText.strip_newline col =
      Ok (map (replace_all newline_at (py " ") 0 []) col))
  /\ (forall bef rest, newline_at bef (10%N :: rest) = None)
  /\ CleanseText.strip_newline [py "a\n\nb"] = Ok [py "a b"].
Proof.
  split; [|split].
  - intro col. unfold CleanseText.strip_newline.
    apply (replace_regex_all col newline_matches).
    apply plain_one. discriminate.
  - intros bef rest. unfold newline_at. cbn [escaped_newlines].
    destruct rest; reflexivity.
  - vm_compute. reflexivity.
Qed.

(** C6, as stated, fails: the pattern names the ellipsis by the text of its
    escaped bytes and by three characters of mojibake, never by the
    character U+2026 (8230), which stays where it is. *)
Lemma strip_elipses_keeps_ellipsis_character :
  CleanseText.strip_elipses [] [[97; 8230; 98]%N] = Ok [[97; 8230; 98]%N]
  /\ CleanseText.strip_elipses [] [[97; 8230; 98]%N] <> Ok [py "ab"].
Proof. split; vm_compute; [reflexivity | discriminate]. Qed.

(** C6, amended: for every text value and every token without a backslash,
    [strip_elipses] replaces with the token each maximal run of two or more
    dots, each occurrence of the twelve characters [\xe2\x80\xa6] and each
    occurrence of the three characters U+00E2 U+20AC U+00A6; the character
    U+2026 itself is never matched. *)
Theorem strip_elipses_spec : forall token col,
  plain token ->
  CleanseText.strip_elipses token col =
  Ok (map (replace_all elipses_at token 0 []) col)
  /\ (forall bef rest, elipses_at bef (8230%N :: rest) = None).
Proof.
  intros token col Hp. split.
  - unfold CleanseText.strip_elipses.
    now apply (replace_regex_all col elipses_matches).
  - reflexivity.
Qed.

Lemma strip_elipses_spec_example :
  plain (py "~")
  /\ (CleanseText.strip_elipses (py "~")
        [py "wait... what\xe2\x80\xa6 ok."] =
      Ok (map (replace_all elipses_at (py "~") 0 [])
            [py "wait... what\xe2\x80\xa6 ok."])
      /\ (forall bef rest, elipses_at bef (8230%N :: rest) = None)).
Proof.
  split.
  - apply plain_one. discriminate.
  - apply (@strip_elipses_spec (py "~") [py "wait... what\xe2\x80\xa6 ok."]).
    apply plain_one. discriminate.
Defined.

Lemma strip_elipses_value :
  CleanseText.strip_elipses (py "~") [py "wait... what\xe2\x80\xa6 ok."] =
  Ok [py "wait~ what~ ok."].
Proof. vm_compute. reflexivity. Qed.

(** C7, as stated, fails: DOUBLE_QUOTES and SINGLE_QUOTES are the texts of
    escaped bytes, so the curly quotes U+201C (8220) and U+201D (8221)
    themselves are neither made straight nor trimmed. *)
Lemma strip_quotes_keeps_curly_quotes :
  CleanseText.strip_quotes [[8220; 104; 105; 8221]%N] =
  Ok [[8220; 104; 105; 8221]%N]
  /\ CleanseText.strip_quotes [[8220; 104; 105; 8221]%N] <> Ok [py "hi"].
Proof. split; vm_compute; [reflexivity | discriminate]. Qed.

(** C7, amended: for every text value, [strip_quotes] first turns the
    twelve characters [\xe2\x80\x9c] or [\xe2\x80\x9d] into a straight
    double quote and [\xe2\x80\x98] or [\xe2\x80\x99] into an apostrophe,
    then removes a quote character that begins the text and one that ends
    it (also just before a final newline); a straight-quoted [hello] comes
    back as [hello]. *)
Theorem strip_quotes_spec :
  (forall col,
      CleanseText.strip_quotes col =
      Ok (map (fun x =>
                 replace_all outer_quote_at [] 0 []
                   (replace_all single_quote_at [39%N] 0 []
                      (replace_all double_quote_at [34%N] 0 [] x))) col))
  /\ CleanseText.strip_quotes [[34%N] ++ py "hello" ++ [34%N]] =
     Ok [py "hello"].
Proof.
  split; [|vm_compute; reflexivity].
  intro col. unfold CleanseText.strip_quotes.
  rewrite (replace_regex_all col double_quote_matches)
    by (apply plain_one; discriminate).
  cbn [bind].
  rewrite (replace_regex_all _ single_quote_matches)
    by (apply plain_one; discriminate).
  cbn [bind].
  rewrite (replace_regex_all _ outer_quote_matches plain_nil).
  now rewrite !map_map.
Qed.

(** ** Every call works row by row *)

Lemma mapM_then_map : forall A B C (f : A -> result B) (g : B -> C) l,
  (c <- mapM f l ;; Ok (map g c)) = mapM (fun x => t <- f x ;; Ok (g t)) l.
Proof.
  induction l as [|a l IH]; [reflexivity|].
  cbn [mapM]. destruct (f a) as [b|e]; cbn [bind]; [|reflexivity].
  rewrite <- IH. destruct (mapM f l); reflexivity.
Qed.

Lemma mapM_chain : forall A B C (f1 : A -> result B) (f2 : B -> result C) g2,
  (forall y, f2 y = Ok (g2 y)) ->
  forall l,
    (c <- mapM f1 l ;; mapM f2 c) = mapM (fun x => y <- f1 x ;; f2 y) l.
Proof.
  intros A B C f1 f2 g2 H. induction l as [|a l IH]; [reflexivity|].
  cbn [mapM]. destruct (f1 a) as [b|e]; cbn [bind]; [|reflexivity].
  rewrite <- IH, H. destruct (mapM f1 l) as [c|e]; cbn [bind mapM].
  - now rewrite H.
  - reflexivity.
Qed.

Lemma mapM_length : forall A B (f : A -> result B) l out,
  mapM f l = Ok out -> length out = length l.
Proof.
  induction l as [|a l IH]; intros out H; cbn in H.
  - injection H as <-. reflexivity.
  - destruct (f a); [|discriminate]. cbn in H.
    destruct (mapM f l); [|discriminate]. cbn in H.
    injection H as <-. cbn. f_equal. now apply IH.
Qed.

Lemma mapM_nth : forall A B (f : A -> result B) l out i x,
  mapM f l = Ok out -> nth_error l i = Some x ->
  exists v, nth_error out i = Some v /\ f x = Ok v.
Proof.
  induction l as [|a l IH]; intros out i x H Hi.
  - destruct i; discriminate.
  - cbn in H. destruct (f a) as [b|] eqn:E; [|discriminate]. cbn in H.
    destruct (mapM f l) as [bs|]; [|discriminate]. cbn in H.
    injection H as <-. destruct i as [|i]; cbn in *.
    + injection Hi as <-. eauto.
    + eapply IH; eauto.
Qed.

Lemma re_sub_plain : forall ic r token x,
  plain token ->
  re_sub ic r token x =
  Ok (flat_map (replaced (map Template.TLit token)) (Re.finditer ic r x)).
Proof.
  intros. unfold re_sub. now rewrite compile_plain.
Qed.

Lemma strip_quotes_chain : forall col,
  CleanseText.strip_quotes col =
  mapM (fun x =>
          a <- re_sub None CleanseText.DOUBLE_QUOTES [34%N] x ;;
          b <- re_sub None CleanseText.SINGLE_QUOTES [39%N] a ;;
          re_sub None CleanseText.OUTER_QUOTES [] b) col.
Proof.
  intro col. unfold CleanseText.strip_quotes, Series.str_replace_regex.
  assert (P34 : plain [34%N]) by (apply plain_one; discriminate).
  assert (P39 : plain [39%N]) by (apply plain_one; discriminate).
  erewrite <- mapM_chain.
  - destruct (mapM _ col) as [c1|e]; [|reflexivity]. cbn [bind].
    eapply mapM_chain. intro y. now apply re_sub_plain, plain_nil.
  - intro y. rewrite (re_sub_plain _ _ y P39). cbn [bind].
    now apply re_sub_plain, plain_nil.
Qed.

Lemma strip_whitespace_chain : forall token col,
  CleanseText.strip_whitespace token col =
  mapM (fun x =>
          a <- re_sub None CleanseText.SPACES token x ;;
          re_sub None CleanseText.OUTER_SPACES [] a) col.
Proof.
  intros token col.
  unfold CleanseText.strip_whitespace, Series.str_replace_regex.
  eapply mapM_chain. intro y. now apply re_sub_plain, plain_nil.
Qed.

Lemma strip_encoding_chain : forall col,
  CleanseText.strip_encoding col =
  mapM (fun x => b <- str_encode x ;; Ok (bytes_decode_ascii b)) col.
Proof.
  intro col. unfold CleanseText.strip_encoding, Series.str_encode_utf8,
    Series.str_decode_ascii_ignore.
  apply mapM_then_map.
Qed.

Lemma call_rowwise : forall ftfy isalnum same op,
  rowwise (call ftfy isalnum same op).
Proof.
  intros ftfy isalnum same op.
  destruct op;
    try match goal with
        | |- rowwise (call _ _ _ (Get_emojis ?c _)) => destruct c
        | |- rowwise (call _ _ _ (Get_hashtags ?s)) => destruct s
        | |- rowwise (call _ _ _ (Get_mentions ?s)) => destruct s
        end;
    eexists; intro col; cbn [call];
    unfold CleanseText.fix_text, CleanseText.strip_mojibake,
      CleanseText.get_hyperlinks, CleanseText.strip_elipses,
      CleanseText.strip_hyperlink, CleanseText.strip_newline,
      CleanseText.strip_punctuation, TweetParser.count_elements,
      TweetParser.get_retweets, TweetParser.has_hashtags,
      TweetParser.has_mentions, TweetParser.has_retweets,
      TweetParser.strip_hashtags, TweetParser.strip_mentions,
      TweetParser.strip_retweets, TweetParser.get_emojis,
      TweetParser.get_hashtags, TweetParser.get_mentions,
      TweetParser.joined, Series.str_join, Series.apply,
      Series.apply_raising, Series.str_findall, Series.str_replace_regex,
      Series.str_replace_literal, Series.str_contains;
    try rewrite strip_encoding_chain;
    try rewrite strip_quotes_chain;
    try rewrite strip_whitespace_chain;
    try (unfold texts; apply mapM_then_map);
    rewrite ?map_map; symmetry; apply mapM_total; intro; reflexivity.
Qed.

(** C8: whenever a call of one of the methods returns a column, the column
    has as many rows as the input, and row [i] of it is what the same call
    returns for row [i] of the input alone: rows are neither reordered nor
    dropped nor added, and no row bears on another. *)
Theorem rows_preserved : forall ftfy isalnum same op col out,
  call ftfy isalnum same op col = Ok out ->
  length out = length col
  /\ forall i x,
       nth_error col i = Some x ->
       exists v,
         nth_error out i = Some v
         /\ call ftfy isalnum same op [x] = Ok [v].
Proof.
  intros ftfy isalnum same op col out H.
  destruct (call_rowwise ftfy isalnum same op) as [f Hf].
  rewrite Hf in H. split.
  - eapply mapM_length; eauto.
  - intros i x Hi. destruct (mapM_nth _ _ _ H Hi) as (v & Hv & Hx).
    exists v. split; [assumption|]. rewrite Hf. cbn. now rewrite Hx.
Qed.

Lemma rows_preserved_example :
  call (fun x => x) (fun _ => false) (fun _ _ => false)
    (Count_elements (py ";")) [py "a;b"; []; py "c"] =
  Ok [VInt 2; VInt 0; VInt 1]
  /\ (length [VInt 2; VInt 0; VInt 1] = length [py "a;b"; []; py "c"]
      /\ forall i x,
           nth_error [py "a;b"; []; py "c"] i = Some x ->
           exists v,
             nth_error [VInt 2; VInt 0; VInt 1] i = Some v
             /\ call (fun x => x) (fun _ => false) (fun _ _ => false)
                  (Count_elements (py ";")) [x] = Ok [v]).
Proof.
  split; [reflexivity|].
  apply (@rows_preserved (fun x => x) (fun _ => false) (fun _ _ => false)
           (Count_elements (py ";")) [py "a;b"; []; py "c"]).
  reflexivity.
Defined.

(** A call raises only where one of its rows raises on its own. *)
Lemma call_raises_rowwise : forall ftfy isalnum same op col e,
  call ftfy isalnum same op col = Err e ->
  exists x, In x col /\ call ftfy isalnum same op [x] = Err e.
Proof.
  intros ftfy isalnum same op col e H.
  destruct (call_rowwise ftfy isalnum same op) as [f Hf].
  rewrite Hf in H. cut (exists x, In x col /\ f x = Err e).
  { intros (x & Hx & Hfx). exists x. split; [assumption|].
    rewrite Hf. cbn. now rewrite Hfx. }
  clear Hf. induction col as [|a col IH]; [discriminate|].
  cbn in H. destruct (f a) as [b|e'] eqn:E.
  - cbn in H. destruct (mapM f col) as [bs|e'']; [discriminate|].
    cbn in H. injection H as ->.
    destruct (IH eq_refl) as (x & Hx & Hfx). exists x. split; [now right|auto].
  - cbn in H. injection H as ->. exists a. split; [now left|auto].
Qed.

(** ** Rows without a match *)

Lemma scan_no_hit : forall m fuel bef aft,
  length aft < fuel ->
  existsb Re.is_hit (Re.scan m fuel bef aft) = false ->
  Re.scan m fuel bef aft = map Re.Skip aft.
Proof.
  induction fuel as [|fuel IH]; intros bef aft Hf H; [lia|].
  cbn [Re.scan] in *. destruct (m bef aft) as [s|].
  - destruct (length aft - length (Re.after s)); discriminate H.
  - destruct aft as [|c aft]; [reflexivity|].
    cbn [existsb Re.is_hit orb map] in *. f_equal.
    apply IH; [cbn in Hf; lia | exact H].
Qed.

Lemma finditer_no_hit : forall ic r x,
  Re.search ic r x = false -> Re.finditer ic r x = map Re.Skip x.
Proof.
  intros ic r x H. unfold Re.finditer. apply scan_no_hit; [lia | exact H].
Qed.

Lemma findall_no_hit : forall ic r x,
  Re.search ic r x = false -> Re.findall ic r x = [].
Proof.
  intros ic r x H. unfold Re.findall. rewrite (finditer_no_hit _ _ _ H).
  clear H. induction x as [|c x IH]; [reflexivity | exact IH].
Qed.

Lemma sub_no_hit : forall ic r token x,
  plain token -> Re.search ic r x = false -> re_sub ic r token x = Ok x.
Proof.
  intros ic r token x Hp H. rewrite re_sub_plain by assumption.
  rewrite (finditer_no_hit _ _ _ H). f_equal. clear H.
  induction x as [|c x IH]; [reflexivity|]. cbn. now rewrite IH.
Qed.

Lemma replace_no_occurrence : forall old new x,
  occurs old x = false -> str_replace old new x = x.
Proof.
  intros old new. unfold str_replace.
  induction x as [|c x IH]; intro H; cbn [occurs] in H;
    apply orb_false_iff in H; destruct H as [H1 H2].
  - destruct old; [discriminate H1 | reflexivity].
  - cbn [replace_go]. destruct old as [|o old]; [discriminate H1|].
    rewrite H1. f_equal. now apply IH.
Qed.

Lemma split_no_occurrence : forall sep x cur,
  occurs sep x = false -> split_go sep 0 cur x = [rev cur ++ x].
Proof.
  intro sep. induction x as [|c x IH]; intros cur H; cbn [occurs] in H;
    apply orb_false_iff in H; destruct H as [H1 H2].
  - cbn. now rewrite app_nil_r.
  - cbn [split_go]. rewrite H1, IH by assumption.
    cbn [rev]. now rewrite <- app_assoc.
Qed.

Lemma count_no_occurrence : forall sep x,
  occurs sep x = false ->
  TweetParser.count_row sep x =
  Ok (match x with [] => 0 | _ :: _ => 1 end).
Proof.
  intros sep x H. destruct x as [|c x]; [reflexivity|].
  unfold TweetParser.count_row, str_split.
  destruct sep as [|s sep]; [discriminate H|].
  now rewrite split_no_occurrence.
Qed.

(** C9, as stated, fails in two ways.  A row in which the separator does
    not occur counts as one element, not zero; and a token that is no valid
    replacement template makes a [strip_] call raise although nothing
    matches.  (Where a separator joins the matches, the result for such a
    row is the empty text rather than the empty list.) *)
Lemma unmatched_rows_counterexample :
  TweetParser.count_elements (py ";") [py "abc"] = Ok [1]
  /\ TweetParser.strip_hashtags (py "\q") [py "abc"] = Err TemplateError
  /\ TweetParser.get_hashtags (py ",") [py "abc"] = [VText []].
Proof. repeat split; vm_compute; reflexivity. Qed.

(** C9, amended: for every call that looks for something and every text
    row in which none of it occurs, with a replacement token free of
    backslashes, the call does not raise and yields: the text unchanged
    for the [strip_] calls; the empty list for the [get_] calls (the empty
    text where a separator joins the matches, the empty counter where they
    are counted); [false] for the [has_] calls; and for [count_elements]
    0 for the empty text but 1 for any other. *)
Theorem no_match_identity : forall ftfy isalnum same op x,
  no_match isalnum same op x ->
  plain (token_of op) ->
  call ftfy isalnum same op [x] = Ok [unmatched op x].
Proof.
  intros ftfy isalnum same op x H Hp.
  destruct op; cbn [no_match patterns token_of unmatched] in *;
    try contradiction;
    repeat match goal with
           | H : forall p, In p (?a :: ?l) -> _ |- _ =>
               pose proof (H a (or_introl eq_refl));
               assert (forall p, In p l -> Re.search (fst p) (snd p) x = false)
                 by (intros p' Hin; apply H; now right);
               clear H
           end;
    cbn [fst snd] in *; cbn [call];
    unfold CleanseText.get_hyperlinks, CleanseText.strip_elipses,
      CleanseText.strip_hyperlink, CleanseText.strip_newline,
      CleanseText.strip_punctuation, CleanseText.strip_quotes,
      CleanseText.strip_whitespace, TweetParser.count_elements,
      TweetParser.get_retweets, TweetParser.has_hashtags,
      TweetParser.has_mentions, TweetParser.has_retweets,
      TweetParser.strip_hashtags, TweetParser.strip_mentions,
      TweetParser.strip_retweets, TweetParser.get_emojis,
      TweetParser.get_hashtags, TweetParser.get_mentions,
      TweetParser.joined, Series.str_join, Series.apply,
      Series.apply_raising, Series.str_findall, Series.str_replace_regex,
      Series.str_replace_literal, Series.str_contains, sensitivity, texts
      in *;
    cbn [map mapM bind];
    repeat (rewrite sub_no_hit
              by (assumption || apply plain_nil
                  || (apply plain_one; discriminate));
            cbn [map mapM bind]);
    rewrite ?findall_no_hit by assumption;
    rewrite ?replace_no_occurrence by assumption;
    rewrite ?count_no_occurrence by assumption;
    try reflexivity.
  - destruct counts; reflexivity.
  - destruct sep; reflexivity.
  - destruct sep; reflexivity.
  - now rewrite H0.
  - now rewrite H0.
  - now rewrite H0.
Qed.

Lemma no_match_identity_example :
  (no_match (fun _ => false) (fun _ _ => false) (Strip_hashtags [])
     (py "no tags here")
   /\ plain (token_of (Strip_hashtags [])))
  /\ call (fun x => x) (fun _ => false) (fun _ _ => false)
       (Strip_hashtags []) [py "no tags here"] =
     Ok [unmatched (Strip_hashtags []) (py "no tags here")].
Proof.
  assert (N : no_match (fun _ => false) (fun _ _ => false)
                (Strip_hashtags []) (py "no tags here")).
  { intros p [<-|[]]. vm_compute. reflexivity. }
  split; [split; [exact N | apply plain_nil]|].
  apply (@no_match_identity (fun x => x) (fun _ => false) (fun _ _ => false)
           (Strip_hashtags []) (py "no tags here") N plain_nil).
Defined.

(** * Further properties of the two modules *)

Lemma mapM_total_on : forall A B (f : A -> result B) (g : A -> B) l,
  (forall a, In a l -> f a = Ok (g a)) -> mapM f l = Ok (map g l).
Proof.
  induction l as [|a l IH]; intros H; cbn; [reflexivity|].
  rewrite H by now left. rewrite IH by (intros; apply H; now right).
  reflexivity.
Qed.

(** ** Hashtags *)

Lemma run_hashtag : forall bef aft g,
  Re.run None TweetParser.HASHTAG_RULE (Re.MState bef aft g) Some =
  match aft with
  | c :: rest =>
      if (c =? 35)%N && (1 <=? span is_handle rest)
      then Some (land (S (span is_handle rest))
                   ((1, firstn (span is_handle rest) rest) :: g) bef aft)
      else None
  | [] => None
  end.
Proof.
  intros bef aft g. unfold TweetParser.HASHTAG_RULE.
  rewrite run_cat. cbn [Re.run Re.after].
  destruct aft as [|c rest]; [reflexivity|].
  unfold Re.lit_match. change (code "#") with 35%N.
  rewrite (N.eqb_sym 35 c). destruct (c =? 35)%N; [|reflexivity].
  unfold Re.advance. cbn [Re.before Re.after Re.groups andb].
  rewrite (@rep_class is_handle (Re.run None TweetParser.handle_char) 1 None
             (Re.capture 1 (Re.MState (c :: bef) rest g))).
  - cbv zeta. unfold cap.
    destruct (1 <=? span is_handle rest); [|reflexivity].
    rewrite capture_land by apply span_le. f_equal.
    unfold land. cbn [firstn skipn rev]. now rewrite <- app_assoc.
  - intros st k H. rewrite run_handle_char, H. reflexivity.
  - intros st k s H _. rewrite run_handle_char, H. reflexivity.
Qed.

Lemma hashtag_matches :
  matches_as TweetParser.HASHTAG_RULE hashtag_at (fun m => [(1, tl m)]).
Proof.
  split.
  - intros bef aft. unfold Re.match_at. rewrite run_hashtag.
    unfold hashtag_at. destruct aft as [|c rest]; [reflexivity|].
    destruct ((c =? 35)%N && (1 <=? span is_handle rest)); reflexivity.
  - intros bef aft n. unfold hashtag_at.
    destruct aft as [|c rest]; [discriminate|].
    destruct ((c =? 35)%N && (1 <=? span is_handle rest)); [|discriminate].
    intro H. injection H as <-. pose proof (span_le is_handle rest).
    cbn [length]. lia.
Qed.

Lemma handle_not_hash : forall c, is_handle c = true -> (c =? 35)%N = false.
Proof.
  intros c H. apply N.eqb_neq. intros ->. discriminate H.
Qed.

Lemma found_hashtags : forall x k bef,
  k <= span is_handle x ->
  flat_map (Re.found TweetParser.HASHTAG_RULE)
    (pieces hashtag_at (fun m => [(1, tl m)]) k bef x) =
  hashtags x.
Proof.
  induction x as [|c x IH]; intros k bef Hk; [reflexivity|].
  cbn [pieces hashtags]. destruct k as [|k].
  - unfold hashtag_at at 1.
    destruct ((c =? 35)%N && (1 <=? span is_handle x)).
    + cbn [flat_map]. rewrite IH by lia. reflexivity.
    + cbn [flat_map Re.found app]. apply IH. lia.
  - cbn [span] in Hk. destruct (is_handle c) eqn:Hc; [|lia].
    rewrite (handle_not_hash _ Hc). cbn [andb app]. apply IH. lia.
Qed.

Lemma findall_hashtags : forall x,
  Re.findall None TweetParser.HASHTAG_RULE x = hashtags x.
Proof.
  intro x. unfold Re.findall.
  rewrite (finditer_pieces x hashtag_matches).
  apply found_hashtags. lia.
Qed.

(** X1: for every separator and column, [get_hashtags] returns for each row
    the text behind every [#] that a character of [[a-zA-Z0-9_]] follows,
    up to the first character outside that class: as a list when the
    separator is empty, joined by the separator otherwise. *)
Theorem get_hashtags_spec : forall sep col,
  TweetParser.get_hashtags sep col =
  map (fun x =>
         match sep with
         | [] => VList (hashtags x)
         | _ :: _ => VText (str_join sep (hashtags x))
         end) col.
Proof.
  intros sep col.
  unfold TweetParser.get_hashtags, TweetParser.joined, Series.str_join,
    Series.str_findall.
  destruct sep; rewrite !map_map; apply map_ext; intro x;
    now rewrite findall_hashtags.
Qed.

Lemma span_forall : forall p x, forallb p (firstn (span p x) x) = true.
Proof.
  induction x as [|c x IH]; [reflexivity|]. cbn [span].
  destruct (p c) eqn:E; [|reflexivity]. cbn. now rewrite E, IH.
Qed.

Lemma span_stops : forall x, handle_head (skipn (span is_handle x) x) = false.
Proof.
  induction x as [|c x IH]; [reflexivity|]. cbn [span].
  destruct (is_handle c) eqn:E; [exact IH | cbn; exact E].
Qed.

Lemma hashtags_in : forall x t,
  In t (hashtags x) ->
  1 <= length t
  /\ forallb is_handle t = true
  /\ exists pre suf,
       x = pre ++ 35%N :: t ++ suf /\ handle_head suf = false.
Proof.
  induction x as [|c x IH]; intros t H; [destruct H|].
  cbn [hashtags] in H. apply in_app_or in H. destruct H as [H|H].
  - destruct ((c =? 35)%N && (1 <=? span is_handle x)) eqn:E;
      [|destruct H].
    destruct H as [<-|[]]. apply andb_true_iff in E. destruct E as [Ec En].
    apply N.eqb_eq in Ec. apply Nat.leb_le in En. subst c.
    pose proof (span_le is_handle x). rewrite length_firstn.
    split; [lia|]. split; [apply span_forall|].
    exists [], (skipn (span is_handle x) x). split; [|apply span_stops].
    cbn [app]. now rewrite firstn_skipn.
  - destruct (IH t H) as (Hl & Hf & pre & suf & -> & Hs).
    repeat split; try assumption. now exists (c :: pre), suf.
Qed.

(** X2: every hashtag that [get_hashtags] returns for a row is non-empty,
    holds characters of [[a-zA-Z0-9_]] only, and stands in the row right
    behind a [#] and before a character outside that class (or the end):
    a hashtag is never cut short and never spans a space or punctuation. *)
Theorem hashtags_are_whole_words : forall x found t,
  TweetParser.get_hashtags [] [x] = [VList found] ->
  In t found ->
  1 <= length t
  /\ forallb is_handle t = true
  /\ exists pre suf,
       x = pre ++ 35%N :: t ++ suf /\ handle_head suf = false.
Proof.
  intros x found t H Hin.
  unfold TweetParser.get_hashtags, TweetParser.joined, Series.str_findall
    in H.
  cbn [map] in H. rewrite findall_hashtags in H. injection H as <-.
  now apply hashtags_in.
Qed.

Lemma hashtags_are_whole_words_example :
  (TweetParser.get_hashtags [] [py "Loving #sun and #beach!"] =
   [VList [py "sun"; py "beach"]]
   /\ In (py "beach") [py "sun"; py "beach"])
  /\ (1 <= length (py "beach")
      /\ forallb is_handle (py "beach") = true
      /\ exists pre suf,
           py "Loving #sun and #beach!" = pre ++ 35%N :: py "beach" ++ suf
           /\ handle_head suf = false).
Proof.
  split.
  - split; [vm_compute; reflexivity | right; left; reflexivity].
  - apply (@hashtags_are_whole_words (py "Loving #sun and #beach!")
             [py "sun"; py "beach"] (py "beach")).
    + vm_compute. reflexivity.
    + right. left. reflexivity.
Defined.

(** Behind a whole run of handle characters the stripped text does not go
    on with a handle character. *)
Lemma strip_tags_run : forall t bef,
  handle_head (replace_all hashtag_at [] (span is_handle t) bef t) = false.
Proof.
  induction t as [|c t IH]; intro bef; [reflexivity|].
  cbn [span]. destruct (is_handle c) eqn:Hc.
  - cbn [replace_all]. apply IH.
  - cbn [replace_all]. unfold hashtag_at.
    destruct ((c =? 35)%N && (1 <=? span is_handle t)).
    + cbn [app]. replace (S (span is_handle t) - 1)
        with (span is_handle t) by lia. apply IH.
    + cbn. exact Hc.
Qed.

Lemma strip_tags_head : forall t bef,
  handle_head (replace_all hashtag_at [] 0 bef t) = true ->
  handle_head t = true.
Proof.
  intros [|c t] bef; [discriminate|]. cbn [replace_all].
  unfold hashtag_at. destruct ((c =? 35)%N && (1 <=? span is_handle t)).
  - cbn [app]. replace (S (span is_handle t) - 1)
      with (span is_handle t) by lia.
    now rewrite strip_tags_run.
  - intro H. exact H.
Qed.

Lemma span_head : forall u, (1 <=? span is_handle u) = handle_head u.
Proof.
  intros [|e u]; [reflexivity|]. cbn. destruct (is_handle e); reflexivity.
Qed.

Lemma strip_tag_free : forall t skip bef,
  tag_free (replace_all hashtag_at [] skip bef t).
Proof.
  induction t as [|c t IH]; intros skip bef; [exact I|].
  cbn [replace_all]. destruct skip as [|k]; [|apply IH].
  unfold hashtag_at at 1.
  destruct ((c =? 35)%N && (1 <=? span is_handle t)) eqn:E; [apply IH|].
  cbn [tag_free]. split; [|apply IH].
  unfold hashtag_at. rewrite span_head.
  destruct ((c =? 35)%N && handle_head _) eqn:E'; [|reflexivity].
  apply andb_true_iff in E'. destruct E' as [Ec Eh].
  apply strip_tags_head in Eh. rewrite span_head, Ec, Eh in E. discriminate.
Qed.

Lemma tag_free_found : forall u grp bef,
  tag_free u ->
  flat_map (Re.found TweetParser.HASHTAG_RULE)
    (pieces hashtag_at grp 0 bef u) = [].
Proof.
  induction u as [|c u IH]; intros grp bef H; [reflexivity|].
  destruct H as [H1 H2]. cbn [pieces].
  change (hashtag_at bef (c :: u)) with (hashtag_at [] (c :: u)).
  rewrite H1. cbn [flat_map Re.found app]. now apply IH.
Qed.

(** X3: for every column, [strip_hashtags] with the empty token succeeds,
    and [get_hashtags] finds no hashtag in any row of what it returns. *)
Theorem strip_then_get_hashtags : forall col,
  exists stripped,
    TweetParser.strip_hashtags [] col = Ok stripped
    /\ TweetParser.get_hashtags [] stripped = map (fun _ => VList []) col.
Proof.
  intro col. exists (map (replace_all hashtag_at [] 0 []) col). split.
  - unfold TweetParser.strip_hashtags.
    apply (replace_regex_all col hashtag_matches plain_nil).
  - unfold TweetParser.get_hashtags, TweetParser.joined, Series.str_findall.
    rewrite !map_map. apply map_ext. intro x. f_equal.
    unfold Re.findall. rewrite (finditer_pieces _ hashtag_matches).
    apply tag_free_found, strip_tag_free.
Qed.

(** ** Reading [findall] off a finder *)

Lemma found_find_all : forall r (f : finder) grp,
  (forall bef aft n t,
      f bef aft = Some (n, t) ->
      Re.found r (Re.Hit (firstn n aft) (grp (firstn n aft))) = [t]) ->
  forall x k bef,
    flat_map (Re.found r)
      (pieces (fun b a => option_map fst (f b a)) grp k bef x) =
    find_all f k bef x.
Proof.
  intros r f grp Hf. induction x as [|c x IH]; intros k bef; [reflexivity|].
  cbn [pieces find_all]. destruct k as [|k]; [|apply IH].
  destruct (f bef (c :: x)) as [[n t]|] eqn:E; cbn [option_map fst].
  - cbn [flat_map]. rewrite (Hf _ _ _ _ E), IH. reflexivity.
  - cbn [flat_map Re.found app]. apply IH.
Qed.

Lemma findall_find_all : forall r (f : finder) grp x,
  matches_as r (fun b a => option_map fst (f b a)) grp ->
  (forall bef aft n t,
      f bef aft = Some (n, t) ->
      Re.found r (Re.Hit (firstn n aft) (grp (firstn n aft))) = [t]) ->
  Re.findall None r x = find_all f 0 [] x.
Proof.
  intros r f grp x Hm Hf. unfold Re.findall.
  rewrite (finditer_pieces x Hm). now apply found_find_all.
Qed.

(** What [find_all] returns was found somewhere in the text. *)
Lemma find_all_in : forall (f : finder) x k bef t,
  In t (find_all f k bef x) ->
  exists pre aft n,
    x = pre ++ aft /\ f (rev pre ++ bef) aft = Some (n, t).
Proof.
  intros f. induction x as [|c x IH]; intros k bef t H; [destruct H|].
  cbn [find_all] in H.
  assert (Hrec : forall k', In t (find_all f k' (c :: bef) x) ->
            exists pre aft n,
              c :: x = pre ++ aft /\ f (rev pre ++ bef) aft = Some (n, t)).
  { intros k' H'. destruct (IH _ _ _ H') as (pre & aft & n & -> & Hf).
    exists (c :: pre), aft, n. split; [reflexivity|].
    cbn [rev]. now rewrite <- app_assoc. }
  destruct k as [|k]; [|now apply Hrec in H].
  destruct (f bef (c :: x)) as [[n t']|] eqn:E; [|now apply Hrec in H].
  destruct H as [<-|H]; [|now apply Hrec in H].
  exists [], (c :: x), n. split; [reflexivity | exact E].
Qed.

(** ** Repetition that gives back *)

Lemma rep_give_back : forall p m lo hi k,
  (forall st k', m st k' =
     match class_step p st with
     | Some s => k' s
     | None => None
     end) ->
  forall aft fuel i bef g,
    length aft < fuel ->
    Re.rep_loop m lo hi k fuel i (Re.MState bef aft g) =
    give_back p lo hi k i bef aft g.
Proof.
  intros p m lo hi k Hm.
  induction aft as [|x rest IH]; intros fuel i bef g Hf;
    (destruct fuel as [|fuel]; [cbn in Hf; lia|]);
    cbn [Re.rep_loop give_back]; rewrite Hm; unfold class_step;
    cbn [Re.after].
  - destruct (Re.below i hi); reflexivity.
  - destruct (Re.below i hi); [|reflexivity]. cbn [andb].
    destruct (p x); [|reflexivity].
    unfold Re.advance. cbn [Re.before Re.after Re.groups length].
    assert (L : (length rest <? S (length rest)) = true)
      by (apply Nat.ltb_lt; lia).
    rewrite L, IH by (cbn in Hf; lia). reflexivity.
Qed.

Lemma handle_not_colon : forall c, is_handle c = true -> (58 =? c)%N = false.
Proof.
  intros c H. apply N.eqb_neq. intros <-. discriminate H.
Qed.

(** A handle that a colon must follow: giving characters back never helps,
    since what comes back is no colon. *)
Lemma give_back_colon : forall (F : Re.mstate -> char -> text -> Re.mstate) k,
  (forall st, k st =
     match Re.after st with
     | x :: r => if (58 =? x)%N then Some (F st x r) else None
     | [] => None
     end) ->
  forall aft i bef g,
    i <= 15 ->
    give_back is_handle 2 (Some 15) k i bef aft g =
    (let n := span is_handle aft in
     match skipn n aft with
     | x :: r =>
         if (58 =? x)%N && (2 <=? i + n) && (i + n <=? 15)
         then Some (F (land n g bef aft) x r) else None
     | [] => None
     end).
Proof.
  intros F k Hk. induction aft as [|x rest IH]; intros i bef g Hi.
  - cbn [give_back span skipn]. rewrite Hk. cbn [Re.after].
    destruct (2 <=? i); reflexivity.
  - cbn [give_back span]. unfold Re.below.
    destruct (is_handle x) eqn:Hx.
    + destruct (i <? 15) eqn:B; cbn [andb].
      * apply Nat.ltb_lt in B. rewrite IH by lia. cbv zeta.
        cbn [skipn]. replace (i + S (span is_handle rest))
          with (S i + span is_handle rest) by lia.
        destruct (skipn (span is_handle rest) rest) as [|y r] eqn:E.
        -- rewrite Hk. cbn [Re.after]. rewrite (handle_not_colon _ Hx).
           destruct (2 <=? i); reflexivity.
        -- destruct ((58 =? y)%N && (2 <=? S i + span is_handle rest)
                     && (S i + span is_handle rest <=? 15)).
           ++ unfold land. cbn [firstn skipn rev].
              now rewrite <- app_assoc.
           ++ rewrite Hk. cbn [Re.after]. rewrite (handle_not_colon _ Hx).
              destruct (2 <=? i); reflexivity.
      * apply Nat.ltb_ge in B. rewrite Hk. cbn [Re.after skipn].
        rewrite (handle_not_colon _ Hx).
        assert (E : (i + S (span is_handle rest) <=? 15) = false)
          by (apply Nat.leb_gt; lia).
        destruct (skipn _ rest) as [|y r];
          [destruct (2 <=? i); reflexivity|].
        rewrite E, !andb_false_r. destruct (2 <=? i); reflexivity.
    + rewrite andb_false_r. rewrite Hk. cbn [Re.after skipn].
      rewrite Nat.add_0_r.
      assert (E : (i <=? 15) = true) by (apply Nat.leb_le; lia).
      rewrite E, andb_true_r.
      destruct (2 <=? i); destruct (58 =? x)%N; reflexivity.
Qed.

(** ** Retweets *)

Lemma run_in_cons : forall ic neg items b x rest g k,
  Re.run ic (Re.In neg items) (Re.MState b (x :: rest) g) k =
  if Re.set_match ic neg items x then k (Re.MState (x :: b) rest g) else None.
Proof. reflexivity. Qed.

Lemma run_char_cons : forall c b x rest g k,
  Re.run None (Re.Lit c) (Re.MState b (x :: rest) g) k =
  if (c =? x)%N then k (Re.MState (x :: b) rest g) else None.
Proof. reflexivity. Qed.

Lemma space_class : forall x,
  Re.set_match None false [Re.Category Re.is_space] x = Re.is_space x.
Proof.
  intro x. unfold Re.set_match. cbn [existsb Re.item_match xorb].
  apply orb_false_r.
Qed.

Lemma firstn_app_next : forall (h : text) c r,
  firstn (S (length h)) (h ++ c :: r) = h ++ [c].
Proof.
  induction h as [|x h IH]; intros c r; [reflexivity|].
  cbn [length app]. change (firstn (S (S (length h))) (x :: h ++ c :: r))
    with (x :: firstn (S (length h)) (h ++ c :: r)).
  now rewrite IH.
Qed.

Lemma skipn_app_next : forall (h : text) c r,
  skipn (S (length h)) (h ++ c :: r) = r.
Proof.
  induction h as [|x h IH]; intros c r; [reflexivity|].
  cbn [length app]. change (skipn (S (S (length h))) (x :: h ++ c :: r))
    with (skipn (S (length h)) (h ++ c :: r)).
  apply IH.
Qed.

Lemma retweet_landing : forall r t s a (h : text) c rest' bef,
  Re.advance c rest'
    (Re.capture 1 (Re.MState (a :: s :: t :: r :: bef) (h ++ c :: rest') [])
       (land (length h) [] (a :: s :: t :: r :: bef) (h ++ c :: rest'))) =
  land (5 + length h)
    [(1, firstn (length (firstn (5 + length h)
                           (r :: t :: s :: a :: h ++ c :: rest')) - 5)
           (skipn 4 (firstn (5 + length h)
                       (r :: t :: s :: a :: h ++ c :: rest'))))]
    bef (r :: t :: s :: a :: h ++ c :: rest').
Proof.
  intros. rewrite capture_land by (rewrite length_app; lia).
  unfold land, Re.advance. cbn [Re.before Re.after Re.groups].
  change (firstn (5 + length h) (r :: t :: s :: a :: h ++ c :: rest'))
    with (r :: t :: s :: a :: firstn (S (length h)) (h ++ c :: rest')).
  change (skipn (5 + length h) (r :: t :: s :: a :: h ++ c :: rest'))
    with (skipn (S (length h)) (h ++ c :: rest')).
  rewrite firstn_app_next, skipn_app_next, firstn_length_app.
  change (skipn 4 (r :: t :: s :: a :: h ++ [c])) with (h ++ [c]).
  cbn [length]. rewrite length_app. cbn [length].
  replace (S (S (S (S (length h + 1)))) - 5) with (length h) by lia.
  rewrite firstn_length_app. f_equal.
  cbn [rev]. rewrite rev_app_distr. cbn [rev app].
  rewrite <- !app_assoc. reflexivity.
Qed.

Lemma retweet_matches :
  matches_as TweetParser.RETWEET_RULE
    (fun b a => option_map fst (retweet_finder b a))
    (fun m => [(1, firstn (length m - 5) (skipn 4 m))]).
Proof.
  split.
  - intros bef aft. unfold Re.match_at, TweetParser.RETWEET_RULE.
    rewrite run_cat, optional_look_behind, run_cat, run_lit. literals.
    unfold retweet_finder.
    destruct aft as [|r [|t [|s [|a rest]]]]; try reflexivity.
    + cbn [is_prefix]. destruct ((82 =? r)%N && _); reflexivity.
    + cbn [is_prefix]. rewrite andb_true_r.
      destruct ((82 =? r)%N && (84 =? t)%N); reflexivity.
    + cbn [is_prefix]. rewrite andb_true_r.
      destruct ((82 =? r)%N && (84 =? t)%N); [|reflexivity].
      unfold land. cbn [length firstn skipn rev app].
      rewrite run_cat. unfold TweetParser.space. rewrite run_in_cons.
      rewrite space_class. destruct (Re.is_space s); reflexivity.
    + cbn [is_prefix]. rewrite andb_true_r.
      rewrite (N.eqb_sym 82 r), (N.eqb_sym 84 t).
      destruct ((r =? 82)%N && (t =? 84)%N); [|reflexivity].
      unfold land at 1. cbn [length firstn skipn rev app].
      rewrite run_cat. unfold TweetParser.space. rewrite run_in_cons.
      rewrite space_class. destruct (Re.is_space s); [|reflexivity].
      rewrite run_cat. unfold TweetParser.HANDLE_RULE.
      rewrite run_cat, run_char_cons. literals.
      rewrite (N.eqb_sym 64 a). destruct (a =? 64)%N; [|reflexivity].
      cbn [andb]. rewrite run_group, run_rep. cbn [Re.after].
      rewrite (@rep_give_back is_handle _ 2 (Some 15) _ run_handle_char)
        by lia.
      rewrite (@give_back_colon
                 (fun st x r' =>
                    Re.advance x r'
                      (Re.capture 1
                         (Re.MState (a :: s :: t :: r :: bef) rest []) st)))
        by (try lia; intros [b' a' g']; cbn [Re.run Re.capture Re.after];
            destruct a'; reflexivity).
      cbv zeta. cbn [Nat.add].
      pose proof (firstn_skipn (span is_handle rest) rest) as Hsplit.
      pose proof (span_le is_handle rest) as Hle.
      destruct (skipn (span is_handle rest) rest) as [|c rest'] eqn:E;
        [reflexivity|].
      rewrite (N.eqb_sym 58 c).
      destruct ((c =? 58)%N && (2 <=? span is_handle rest)
                && (span is_handle rest <=? 15)); [|reflexivity].
      cbn [option_map fst].
      remember (firstn (span is_handle rest) rest) as h eqn:Hh.
      assert (Hl : length h = span is_handle rest)
        by (subst h; rewrite length_firstn; lia).
      rewrite <- Hl. clear Hh Hl Hle. subst rest.
      apply f_equal, retweet_landing.
  - intros bef aft n H. unfold retweet_finder in H.
    destruct aft as [|r [|t [|s [|a rest]]]]; try discriminate.
    destruct ((r =? 82)%N && (t =? 84)%N && Re.is_space s && (a =? 64)%N);
      [|discriminate].
    cbv zeta in H.
    pose proof (firstn_skipn (span is_handle rest) rest) as Hsplit.
    destruct (skipn (span is_handle rest) rest) as [|c rest'] eqn:E;
      [discriminate|].
    destruct ((c =? 58)%N && (2 <=? span is_handle rest)
              && (span is_handle rest <=? 15)); [|discriminate].
    injection H as <-. apply (f_equal (@length char)) in Hsplit.
    rewrite length_app, length_firstn in Hsplit. cbn [length] in *. lia.
Qed.

Lemma findall_retweets : forall x,
  Re.findall None TweetParser.RETWEET_RULE x = find_all retweet_finder 0 [] x.
Proof.
  intro x. apply (@findall_find_all _ retweet_finder _ x retweet_matches).
  intros bef aft n t H. unfold retweet_finder in H.
  destruct aft as [|r [|t' [|s [|a rest]]]]; try discriminate.
  destruct ((r =? 82)%N && (t' =? 84)%N && Re.is_space s && (a =? 64)%N);
    [|discriminate].
  cbv zeta in H.
  pose proof (firstn_skipn (span is_handle rest) rest) as Hsplit.
  destruct (skipn (span is_handle rest) rest) as [|c rest'] eqn:E;
    [discriminate|].
  destruct ((c =? 58)%N && (2 <=? span is_handle rest)
            && (span is_handle rest <=? 15)); [|discriminate].
  injection H as <- <-.
  pose proof (span_le is_handle rest) as Hle.
  remember (firstn (span is_handle rest) rest) as h eqn:Hh.
  assert (Hl : length h = span is_handle rest)
    by (subst h; rewrite length_firstn; lia).
  rewrite <- Hl. clear Hh Hl Hle E. subst rest.
  change (firstn (S (S (S (S (S (length h))))))
            (r :: t' :: s :: a :: h ++ c :: rest'))
    with (r :: t' :: s :: a :: firstn (S (length h)) (h ++ c :: rest')).
  rewrite firstn_app_next.
  change (Re.found TweetParser.RETWEET_RULE
            (Re.Hit (r :: t' :: s :: a :: h ++ [c])
               [(1, firstn (length (r :: t' :: s :: a :: h ++ [c]) - 5)
                      (skipn 4 (r :: t' :: s :: a :: h ++ [c])))]))
    with [firstn (length (r :: t' :: s :: a :: h ++ [c]) - 5) (h ++ [c])].
  cbn [length]. rewrite length_app. cbn [length].
  replace (S (S (S (S (length h + 1)))) - 5) with (length h) by lia.
  now rewrite firstn_length_app.
Qed.

(** X4: for every column, [get_retweets] returns for each row, left to
    right, the handle of every attribution [RT], one whitespace character,
    [@], handle, [:], where the handle is a whole run of 2 to 15 characters
    of [[a-zA-Z0-9_]] with the colon right behind it.  A scan that has
    found one goes on behind its colon. *)
Theorem get_retweets_spec : forall col,
  TweetParser.get_retweets col = map (find_all retweet_finder 0 []) col.
Proof.
  intro col. unfold TweetParser.get_retweets, Series.str_findall.
  apply map_ext. intro x. apply findall_retweets.
Qed.

Lemma retweet_finder_sound : forall bef aft n t,
  retweet_finder bef aft = Some (n, t) ->
  2 <= length t <= 15
  /\ forallb is_handle t = true
  /\ exists ws suf,
       Re.is_space ws = true
       /\ aft = py "RT" ++ ws :: 64%N :: t ++ 58%N :: suf.
Proof.
  intros bef aft n t H. unfold retweet_finder in H.
  destruct aft as [|r [|t' [|s [|a rest]]]]; try discriminate.
  destruct ((r =? 82)%N && (t' =? 84)%N && Re.is_space s && (a =? 64)%N)
    eqn:E1; [|discriminate].
  cbv zeta in H.
  pose proof (firstn_skipn (span is_handle rest) rest) as Hsplit.
  destruct (skipn (span is_handle rest) rest) as [|c rest'] eqn:E;
    [discriminate|].
  destruct ((c =? 58)%N && (2 <=? span is_handle rest)
            && (span is_handle rest <=? 15)) eqn:E2; [|discriminate].
  injection H as <- <-.
  repeat (apply andb_true_iff in E1; destruct E1 as [E1 ?]).
  repeat (apply andb_true_iff in E2; destruct E2 as [E2 ?]).
  repeat match goal with
         | H : (_ =? _)%N = true |- _ => apply N.eqb_eq in H
         | H : (_ <=? _) = true |- _ => apply Nat.leb_le in H
         end.
  subst r t' a c. pose proof (span_le is_handle rest).
  rewrite length_firstn. split; [lia|]. split; [apply span_forall|].
  exists s, rest'. split; [assumption|].
  change (py "RT") with [82; 84]%N. cbn [app].
  do 4 f_equal. symmetry. exact Hsplit.
Qed.

(** X5: every handle that [get_retweets] returns for a row has 2 to 15
    characters, all of [[a-zA-Z0-9_]], and stands in the row between
    [RT], a whitespace character and [@] on the one side and a colon on the
    other: a handle of more than 15 characters is never reported, not even
    cut to 15 as [get_mentions] does. *)
Theorem retweets_are_whole_handles : forall x found t,
  TweetParser.get_retweets [x] = [found] ->
  In t found ->
  2 <= length t <= 15
  /\ forallb is_handle t = true
  /\ exists pre ws suf,
       Re.is_space ws = true
       /\ x = pre ++ py "RT" ++ ws :: 64%N :: t ++ 58%N :: suf.
Proof.
  intros x found t H Hin.
  unfold TweetParser.get_retweets, Series.str_findall in H.
  cbn [map] in H. rewrite findall_retweets in H. injection H as <-.
  apply find_all_in in Hin. destruct Hin as (pre & aft & n & -> & Hf).
  apply retweet_finder_sound in Hf.
  destruct Hf as (Hl & Hh & ws & suf & Hws & ->).
  repeat split; try assumption; try lia. now exists pre, ws, suf.
Qed.

Lemma retweets_are_whole_handles_example :
  (TweetParser.get_retweets [py "RT @alice: hello"] = [[py "alice"]]
   /\ In (py "alice") [py "alice"])
  /\ (2 <= length (py "alice") <= 15
      /\ forallb is_handle (py "alice") = true
      /\ exists pre ws suf,
           Re.is_space ws = true
           /\ py "RT @alice: hello" =
              pre ++ py "RT" ++ ws :: 64%N :: py "alice" ++ 58%N :: suf).
Proof.
  split.
  - split; [vm_compute; reflexivity | left; reflexivity].
  - apply (@retweets_are_whole_handles (py "RT @alice: hello")
             [py "alice"] (py "alice")).
    + vm_compute. reflexivity.
    + left. reflexivity.
Defined.

(** ** Hyperlinks, once more *)





(** ** Flags and lists agree *)

Lemma hit_found : forall r l,
  existsb Re.is_hit l = any (flat_map (Re.found r) l).
Proof.
  intros r. induction l as [|p l IH]; [reflexivity|].
  destruct p; cbn [existsb Re.is_hit flat_map Re.found app orb];
    [exact IH | reflexivity].
Qed.

Lemma search_findall : forall ic r x,
  Re.search ic r x = any (Re.findall ic r x).
Proof. intros. apply hit_found. Qed.

(** X7: with [case_sensitive=True], [has_hashtags], [has_mentions] and
    [has_retweets] flag exactly the rows for which [get_hashtags],
    [get_mentions] and [get_retweets] return a list that is not empty. *)
Theorem flags_agree_with_lists : forall same col,
  TweetParser.has_hashtags same true col =
  map any_value (TweetParser.get_hashtags [] col)
  /\ TweetParser.has_mentions same true col =
     map any_value (TweetParser.get_mentions [] col)
  /\ TweetParser.has_retweets same true col =
     map any (TweetParser.get_retweets col).
Proof.
  intros same col.
  unfold TweetParser.has_hashtags, TweetParser.has_mentions,
    TweetParser.has_retweets, TweetParser.get_hashtags,
    TweetParser.get_mentions, TweetParser.get_retweets, TweetParser.joined,
    Series.str_contains, Series.str_findall.
  rewrite !map_map.
  repeat split; apply map_ext; intro x; apply search_findall.
Qed.

(** ** Encoding *)

Lemma utf8_ascii : forall c, is_ascii c = true -> utf8 c = Ok [c].
Proof. intros c H. unfold utf8, is_ascii in *. now rewrite H. Qed.

Lemma utf8_other : forall c,
  is_ascii c = false -> is_surrogate c = false ->
  exists b, utf8 c = Ok b /\ bytes_decode_ascii b = [].
Proof.
  intros c Ha Hs. unfold utf8, is_ascii, is_surrogate in *. rewrite Ha.
  assert (L : forall a b : N, (128 <= a)%N -> (a + b <? 128)%N = false)
    by (intros; apply N.ltb_ge; lia).
  destruct (c <? 2048)%N; [|destruct (c <? 65536)%N; [rewrite Hs|]];
    eexists; (split; [reflexivity|]); unfold bytes_decode_ascii;
    cbn [filter]; rewrite !L by lia; reflexivity.
Qed.

Lemma utf8_surrogate : forall c,
  is_surrogate c = true -> utf8 c = Err UnicodeEncodeError.
Proof.
  intros c H. unfold utf8, is_surrogate in *.
  apply andb_true_iff in H. destruct H as [H1 H2].
  apply N.leb_le in H1, H2.
  assert (A : (c <? 128)%N = false) by (apply N.ltb_ge; lia).
  assert (B : (c <? 2048)%N = false) by (apply N.ltb_ge; lia).
  assert (C : (c <? 65536)%N = true) by (apply N.ltb_lt; lia).
  rewrite A, B, C.
  assert (D : ((55296 <=? c) && (c <=? 57343))%N = true)
    by (apply andb_true_iff; split; apply N.leb_le; lia).
  now rewrite D.
Qed.

Lemma decode_app : forall a b,
  bytes_decode_ascii (a ++ b) = bytes_decode_ascii a ++ bytes_decode_ascii b.
Proof. intros. apply filter_app. Qed.

Lemma encode_decode : forall x,
  existsb is_surrogate x = false ->
  exists b, str_encode x = Ok b /\ bytes_decode_ascii b = filter is_ascii x.
Proof.
  induction x as [|c x IH]; intro H; [now exists []|].
  cbn [existsb] in H. apply orb_false_iff in H. destruct H as [Hc Hx].
  destruct (IH Hx) as (bs & Hb & Hd). cbn [str_encode filter].
  destruct (is_ascii c) eqn:Ha.
  - rewrite (utf8_ascii _ Ha), Hb. cbn [bind]. eexists. split; [reflexivity|].
    rewrite decode_app, Hd. unfold bytes_decode_ascii at 1. cbn [filter].
    unfold is_ascii in Ha. now rewrite Ha.
  - destruct (utf8_other _ Ha Hc) as (b & Hu & Hn).
    rewrite Hu, Hb. cbn [bind]. eexists. split; [reflexivity|].
    now rewrite decode_app, Hn, Hd.
Qed.

Lemma encode_surrogate : forall x,
  existsb is_surrogate x = true -> str_encode x = Err UnicodeEncodeError.
Proof.
  induction x as [|c x IH]; intro H; [discriminate|].
  cbn [existsb] in H. cbn [str_encode].
  destruct (is_surrogate c) eqn:Hc.
  - now rewrite (utf8_surrogate _ Hc).
  - cbn [orb] in H. rewrite (IH H).
    destruct (utf8 c) as [b|e] eqn:Hu; [reflexivity|].
    unfold utf8 in Hu. unfold is_surrogate in Hc.
    destruct (c <? 128)%N; [discriminate|].
    destruct (c <? 2048)%N; [discriminate|].
    destruct (c <? 65536)%N; [|discriminate].
    rewrite Hc in Hu. discriminate.
Qed.

(** X8: on a column without surrogate code points [strip_encoding] does
    not raise and returns for each row its ASCII characters (code points
    below 128), in their order, and nothing else: every other character is
    dropped, none is replaced. *)
Theorem strip_encoding_keeps_ascii : forall col,
  forallb (fun x => negb (existsb is_surrogate x)) col = true ->
  CleanseText.strip_encoding col = Ok (map (filter is_ascii) col).
Proof.
  intros col H. rewrite strip_encoding_chain.
  apply mapM_total_on. rewrite forallb_forall in H.
  intros x Hx. specialize (H x Hx). apply negb_true_iff in H.
  destruct (encode_decode x H) as (b & Hb & Hd).
  now rewrite Hb; cbn [bind]; rewrite Hd.
Qed.

Lemma strip_encoding_keeps_ascii_example :
  forallb (fun x => negb (existsb is_surrogate x))
    [[99; 97; 102; 233; 32; 128512]%N] = true
  /\ CleanseText.strip_encoding [[99; 97; 102; 233; 32; 128512]%N] =
     Ok (map (filter is_ascii) [[99; 97; 102; 233; 32; 128512]%N]).
Proof.
  split; [reflexivity|].
  apply (@strip_encoding_keeps_ascii [[99; 97; 102; 233; 32; 128512]%N]).
  reflexivity.
Defined.

(** X9: [strip_encoding] raises [UnicodeEncodeError] as soon as one row of
    the column holds a surrogate code point (U+D800 to U+DFFF); it does not
    drop it as it drops other characters outside ASCII. *)
Theorem strip_encoding_raises_on_surrogate : forall col,
  existsb (existsb is_surrogate) col = true ->
  CleanseText.strip_encoding col = Err UnicodeEncodeError.
Proof.
  intros col H. rewrite strip_encoding_chain.
  induction col as [|x col IH]; [discriminate|].
  cbn [existsb] in H. cbn [mapM].
  destruct (existsb is_surrogate x) eqn:Hx.
  - now rewrite (encode_surrogate x Hx).
  - cbn [orb] in H. destruct (encode_decode x Hx) as (b & Hb & _).
    rewrite Hb. cbn [bind]. now rewrite (IH H).
Qed.

Lemma strip_encoding_raises_on_surrogate_example :
  existsb (existsb is_surrogate) [py "ok"; [97; 55357; 98]%N] = true
  /\ CleanseText.strip_encoding [py "ok"; [97; 55357; 98]%N] =
     Err UnicodeEncodeError.
Proof.
  split; [reflexivity|].
  apply (@strip_encoding_raises_on_surrogate [py "ok"; [97; 55357; 98]%N]).
  reflexivity.
Defined.

(** ** Counting delimited elements *)

(** X10: with the empty separator [count_elements] raises [ValueError] as
    soon as one row is not empty ([str.split] refuses an empty separator),
    and returns 0 for every row when all rows are empty, since the empty
    row is never split. *)
Theorem count_elements_empty_separator : forall col,
  TweetParser.count_elements [] col =
  if forallb empty col then Ok (map (fun _ => 0) col) else Err ValueError.
Proof.
  induction col as [|x col IH]; [reflexivity|].
  unfold TweetParser.count_elements, Series.apply_raising in *.
  cbn [mapM forallb]. destruct x as [|c x]; cbn [empty andb]; [|reflexivity].
  cbn [TweetParser.count_row bind]. rewrite IH.
  destruct (forallb empty col); reflexivity.
Qed.

Lemma split_count : forall sep x skip cur,
  length (split_go sep skip cur x) = S (count_go sep skip x).
Proof.
  intro sep. induction x as [|c x IH]; intros skip cur; [reflexivity|].
  cbn [split_go count_go]. destruct skip as [|k]; [|apply IH].
  destruct (is_prefix sep (c :: x)); [|apply IH].
  cbn [length]. now rewrite IH.
Qed.

Lemma count_row_count : forall sep x,
  sep <> [] ->
  TweetParser.count_row sep x =
  Ok (if empty x then 0 else S (str_count sep x)).
Proof.
  intros sep x Hs. destruct x as [|c x]; [reflexivity|].
  unfold TweetParser.count_row, str_split, str_count.
  destruct sep as [|s sep]; [contradiction|].
  cbn [bind empty]. now rewrite split_count.
Qed.

(** X11: with a separator that is not empty [count_elements] never raises;
    it gives 0 for the empty row and for any other row one more than the
    number of occurrences of the separator (counted from the left, without
    overlap), so 0 is returned for the empty row only. *)
Theorem count_elements_counts_separators : forall sep col,
  sep <> [] ->
  TweetParser.count_elements sep col =
  Ok (map (fun x => if empty x then 0 else S (str_count sep x)) col).
Proof.
  intros sep col Hs. unfold TweetParser.count_elements, Series.apply_raising.
  apply mapM_total. intro x. now apply count_row_count.
Qed.

Lemma count_elements_counts_separators_example :
  py ", " <> []
  /\ TweetParser.count_elements (py ", ") [py "a, b, c"; []; py ", "] =
     Ok (map (fun x => if empty x then 0 else S (str_count (py ", ") x))
           [py "a, b, c"; []; py ", "]).
Proof.
  split; [discriminate|].
  apply (@count_elements_counts_separators (py ", ")
           [py "a, b, c"; []; py ", "]).
  discriminate.
Defined.

Lemma split_field : forall c f cur rest,
  ~ In c f ->
  split_go [c] 0 cur (f ++ rest) = split_go [c] 0 (rev f ++ cur) rest.
Proof.
  intros c. induction f as [|x f IH]; intros cur rest H; [reflexivity|].
  cbn [app split_go is_prefix].
  assert (E : (c =? x)%N = false).
  { apply N.eqb_neq. intros ->. apply H. now left. }
  rewrite E. cbn [andb]. rewrite IH by (intro; apply H; now right).
  cbn [rev]. now rewrite <- app_assoc.
Qed.

Lemma split_join : forall c fields f cur,
  Forall (fun f => ~ In c f) (f :: fields) ->
  split_go [c] 0 cur (str_join [c] (f :: fields)) =
  (rev cur ++ f) :: fields.
Proof.
  intros c. induction fields as [|g fields IH]; intros f cur H.
  - cbn [str_join]. rewrite <- (app_nil_r f) at 1.
    rewrite split_field by (now inversion H). cbn [split_go].
    now rewrite rev_app_distr, rev_involutive.
  - change (str_join [c] (f :: g :: fields))
      with (f ++ c :: str_join [c] (g :: fields)).
    inversion H as [|? ? Hf Hrest]; subst.
    rewrite split_field by assumption.
    cbn [split_go is_prefix length Nat.sub]. rewrite N.eqb_refl. cbn [andb].
    rewrite (IH g [] Hrest). cbn [rev app].
    now rewrite rev_app_distr, rev_involutive.
Qed.

(** X12: counting undoes joining.  When fields that do not hold the
    one-character separator are joined by it and the joined text is not
    empty, [count_elements] with that separator returns the number of
    fields. *)
Theorem count_elements_of_joined : forall c fields,
  Forall (fun f => ~ In c f) fields ->
  str_join [c] fields <> [] ->
  TweetParser.count_elements [c] [str_join [c] fields] = Ok [length fields].
Proof.
  intros c fields H Hne.
  unfold TweetParser.count_elements, Series.apply_raising. cbn [mapM].
  destruct fields as [|f fields]; [contradiction Hne; reflexivity|].
  unfold TweetParser.count_row.
  destruct (str_join [c] (f :: fields)) as [|y j] eqn:E;
    [contradiction Hne; reflexivity|].
  rewrite <- E. unfold str_split. cbn [bind].
  now rewrite (@split_join c fields f [] H).
Qed.

Lemma count_elements_of_joined_example :
  (Forall (fun f => ~ In 59%N f) [py "a"; []; py "b c"]
   /\ str_join [59%N] [py "a"; []; py "b c"] <> [])
  /\ TweetParser.count_elements [59%N]
       [str_join [59%N] [py "a"; []; py "b c"]] =
     Ok [length [py "a"; []; py "b c"]].
Proof.
  assert (F : Forall (fun f => ~ In 59%N f) [py "a"; []; py "b c"]).
  { repeat constructor; vm_compute; intuition discriminate. }
  split; [split; [exact F | discriminate]|].
  apply (@count_elements_of_joined 59%N [py "a"; []; py "b c"] F).
  discriminate.
Defined.

(** ** Emojis *)

(** A pattern that is one set of characters finds every character of the
    set, one by one. *)
Lemma scan_class : forall neg items fuel bef aft,
  length aft < fuel ->
  Re.scan (Re.match_at None (Re.In neg items)) fuel bef aft =
  map (fun c => if Re.set_match None neg items c
                then Re.Hit [c] [] else Re.Skip c) aft.
Proof.
  intros neg items. induction fuel as [|fuel IH]; intros bef aft H; [lia|].
  destruct aft as [|c aft]; [reflexivity|].
  cbn [Re.scan map]. unfold Re.match_at at 1. cbn [Re.run Re.after].
  destruct (Re.set_match None neg items c).
  - unfold Re.advance. cbn [Re.after Re.groups Re.before].
    replace (length (c :: aft) - length aft) with 1 by (cbn [length]; lia).
    cbn [firstn skipn rev app]. f_equal. apply IH. cbn in H. lia.
  - f_equal. apply IH. cbn in H. lia.
Qed.

Lemma findall_class : forall neg items x,
  Re.findall None (Re.In neg items) x =
  map (fun c : char => [c]) (filter (Re.set_match None neg items) x).
Proof.
  intros neg items x. unfold Re.findall, Re.finditer.
  rewrite scan_class by lia.
  induction x as [|c x IH]; [reflexivity|]. cbn [map flat_map filter].
  destruct (Re.set_match None neg items c); cbn [Re.found app map];
    now rewrite IH.
Qed.

Lemma emoji_class : forall isalnum (all_emojis : bool) c,
  match (if all_emojis then TweetParser.EMOJI_EMOJI_ALL isalnum
         else TweetParser.EMOJI_EMOJI_SET) with
  | Re.In neg items => Re.set_match None neg items c
  | _ => false
  end = emoji_char isalnum all_emojis c.
Proof.
  intros isalnum all_emojis c.
  destruct all_emojis; unfold emoji_char, TweetParser.EMOJI_EMOJI_ALL,
    TweetParser.EMOJI_EMOJI_SET, Re.set_match, is_emoji, one;
    cbn [existsb Re.item_match xorb].
  - literals.
    change ((44 <=? c) && (c <=? 44))%N with (in_range 44 44 c).
    change ((46 <=? c) && (c <=? 46))%N with (in_range 46 46 c).
    change ((32 <=? c) && (c <=? 32))%N with (in_range 32 32 c).
    rewrite !range_one, orb_false_r, !orb_assoc. reflexivity.
  - rewrite orb_false_r, !orb_assoc. reflexivity.
Qed.

Lemma findall_emojis : forall isalnum (all_emojis : bool) x,
  Re.findall None
    (if all_emojis then TweetParser.EMOJI_EMOJI_ALL isalnum
     else TweetParser.EMOJI_EMOJI_SET) x =
  map (fun c : char => [c]) (filter (emoji_char isalnum all_emojis) x).
Proof.
  intros isalnum all_emojis x.
  pose proof (emoji_class isalnum all_emojis) as H.
  destruct all_emojis; unfold TweetParser.EMOJI_EMOJI_ALL,
    TweetParser.EMOJI_EMOJI_SET in *; rewrite findall_class;
    f_equal; apply filter_ext; exact H.
Qed.

(** X13: without [counts], [get_emojis] returns for each row its emoji
    characters, each as a text of one character, in the order and as often
    as they stand in the row: the code points of the four ranges, or with
    [all_emojis] every character that is neither a word character, nor
    whitespace, nor a comma or full stop. *)
Theorem get_emojis_spec : forall isalnum all_emojis col,
  TweetParser.get_emojis isalnum false all_emojis col =
  map (fun x =>
         VList (map (fun c : char => [c]) (filter (emoji_char isalnum all_emojis) x)))
    col.
Proof.
  intros isalnum all_emojis col.
  unfold TweetParser.get_emojis, Series.str_findall.
  rewrite map_map. apply map_ext. intro x. now rewrite findall_emojis.
Qed.

Lemma text_eqb_eq : forall a b, text_eqb a b = true <-> a = b.
Proof.
  intros a b. unfold text_eqb. destruct (list_eq_dec N.eq_dec a b);
    split; intro H; congruence.
Qed.

Lemma counter_get_add : forall key x c,
  counter_get key (counter_add x c) =
  counter_get key c + (if text_eqb key x then 1 else 0).
Proof.
  intros key x. induction c as [|[y n] c IH].
  - cbn. destruct (text_eqb key x); reflexivity.
  - cbn [counter_add]. destruct (text_eqb x y) eqn:E.
    + apply text_eqb_eq in E. subst y. cbn [counter_get].
      destruct (text_eqb key x); lia.
    + cbn [counter_get]. destruct (text_eqb key y) eqn:K; [|exact IH].
      apply text_eqb_eq in K. subst y.
      assert (text_eqb key x = false) as ->.
      { destruct (text_eqb key x) eqn:K'; [|reflexivity].
        apply text_eqb_eq in K'. subst x.
        assert (text_eqb key key = true) by now apply text_eqb_eq.
        congruence. }
      lia.
Qed.

Lemma counter_keys_add : forall k x c,
  In k (map fst (counter_add x c)) <-> k = x \/ In k (map fst c).
Proof.
  intros k x. induction c as [|[y n] c IH].
  - cbn. intuition congruence.
  - cbn [counter_add]. destruct (text_eqb x y) eqn:E.
    + apply text_eqb_eq in E. subst y. cbn. intuition congruence.
    + cbn [map fst In]. rewrite IH. intuition congruence.
Qed.

Lemma counter_nodup_add : forall x c,
  NoDup (map fst c) -> NoDup (map fst (counter_add x c)).
Proof.
  intros x. induction c as [|[y n] c IH]; intro H.
  - cbn. constructor; [intros []|constructor].
  - cbn [counter_add]. cbn [map fst] in H. inversion H as [|? ? Hy Hc]; subst.
    destruct (text_eqb x y) eqn:E.
    + cbn [map fst]. now constructor.
    + cbn [map fst]. constructor; [|now apply IH].
      intro Hin. apply counter_keys_add in Hin. destruct Hin as [->|Hin].
      * assert (text_eqb x x = true) by now apply text_eqb_eq. congruence.
      * contradiction.
Qed.

Lemma counter_pos_add : forall x c,
  Forall (fun p => 1 <= snd p) c ->
  Forall (fun p => 1 <= snd p) (counter_add x c).
Proof.
  intros x. induction c as [|[y n] c IH]; intro H.
  - cbn. repeat constructor.
  - cbn [counter_add]. inversion H; subst.
    destruct (text_eqb x y); constructor; cbn in *; auto; lia.
Qed.

Lemma counter_fold : forall l acc,
  NoDup (map fst acc) -> Forall (fun p => 1 <= snd p) acc ->
  NoDup (map fst (fold_left (fun c x => counter_add x c) l acc))
  /\ Forall (fun p => 1 <= snd p)
       (fold_left (fun c x => counter_add x c) l acc)
  /\ forall key,
       counter_get key (fold_left (fun c x => counter_add x c) l acc) =
       counter_get key acc + occurrences key l.
Proof.
  induction l as [|x l IH]; intros acc Hn Hp.
  - cbn [fold_left]. repeat split; try assumption.
    intro key. unfold occurrences. cbn [filter length]. lia.
  - cbn [fold_left].
    destruct (IH (counter_add x acc) (counter_nodup_add x _ Hn)
                (counter_pos_add x Hp)) as (H1 & H2 & H3).
    repeat split; auto. intro key. rewrite H3, counter_get_add.
    unfold occurrences. cbn [filter].
    destruct (text_eqb key x); cbn [length]; lia.
Qed.

(** X14: with [counts], [get_emojis] returns for each row a counter that
    holds every emoji of the list returned without [counts] once, with the
    number of times it stands in that list (1 at least); an emoji that is
    not in the list has no entry, and reads as 0. *)
Theorem get_emojis_counts : forall isalnum all_emojis x,
  exists found counter,
    TweetParser.get_emojis isalnum false all_emojis [x] = [VList found]
    /\ TweetParser.get_emojis isalnum true all_emojis [x] = [VCounter counter]
    /\ NoDup (map fst counter)
    /\ Forall (fun p => 1 <= snd p) counter
    /\ forall key, counter_get key counter = occurrences key found.
Proof.
  intros isalnum all_emojis x.
  unfold TweetParser.get_emojis, Series.str_findall, Series.apply.
  cbn [map]. eexists. eexists. split; [reflexivity|]. split; [reflexivity|].
  unfold Counter. apply counter_fold; constructor.
Qed.

(** ** Whitespace *)

Lemma run_space : forall st k,
  Re.run None (Re.In false [Re.Category Re.is_space]) st k =
  match class_step Re.is_space st with
  | Some s => k s
  | None => None
  end.
Proof.
  intros st k. cbn [Re.run]. unfold class_step.
  destruct (Re.after st) as [|x rest]; [reflexivity|].
  rewrite space_class. destruct (Re.is_space x); reflexivity.
Qed.

Lemma run_spaces : forall bef aft g,
  Re.run None CleanseText.SPACES (Re.MState bef aft g) Some =
  (let n := span Re.is_space aft in
   if 1 <=? n then Some (land n g bef aft) else None).
Proof.
  intros bef aft g. unfold CleanseText.SPACES. rewrite run_rep.
  cbn [Re.after].
  rewrite (@rep_class Re.is_space
             (Re.run None (Re.In false [Re.Category Re.is_space])) 1 None
             (fun s => s)).
  - reflexivity.
  - intros st k H. rewrite run_space, H. reflexivity.
  - intros st k s H _. rewrite run_space, H. reflexivity.
Qed.

Lemma spaces_matches :
  matches_as CleanseText.SPACES spaces_at (fun _ => []).
Proof.
  split.
  - intros bef aft. unfold Re.match_at, spaces_at. rewrite run_spaces.
    cbv zeta. destruct (1 <=? span Re.is_space aft); reflexivity.
  - intros bef aft n. unfold spaces_at.
    pose proof (span_le Re.is_space aft).
    destruct (1 <=? span Re.is_space aft) eqn:E; [|discriminate].
    apply Nat.leb_le in E. intro H'. injection H' as <-. lia.
Qed.

Lemma newline_is_space : forall x, (x =? 10)%N = true -> Re.is_space x = true.
Proof. intros x H. apply N.eqb_eq in H. now subst. Qed.

(** A run of whitespace that must end the text: giving characters back
    never helps. *)
Lemma give_back_end : forall aft i bef g,
  give_back Re.is_space 1 None (fun s => Re.run None Re.Eol s Some) i bef
    aft g =
  (let n := span Re.is_space aft in
   if (1 <=? i + n) && empty (skipn n aft)
   then Some (land n g bef aft) else None).
Proof.
  induction aft as [|x rest IH]; intros i bef g.
  - cbn [give_back span skipn empty Re.run Re.after].
    rewrite Nat.add_0_r, andb_true_r. reflexivity.
  - cbn [give_back span Re.below andb].
    destruct (Re.is_space x) eqn:Hx.
    + rewrite IH. cbv zeta. cbn [skipn].
      replace (i + S (span Re.is_space rest))
        with (S i + span Re.is_space rest) by lia.
      assert (E1 : (1 <=? S i + span Re.is_space rest) = true)
        by (apply Nat.leb_le; lia).
      rewrite E1. cbn [andb].
      destruct (empty (skipn (span Re.is_space rest) rest)) eqn:E.
      * unfold land. cbn [firstn skipn rev]. now rewrite <- app_assoc.
      * cbn [Re.run Re.after].
        destruct rest as [|y rest']; [discriminate E|].
        destruct (1 <=? i); reflexivity.
    + cbn [skipn empty]. rewrite andb_false_r. cbn [Re.run Re.after].
      destruct rest as [|y rest'].
      * destruct (x =? 10)%N eqn:E;
          [apply newline_is_space in E; congruence|].
        destruct (1 <=? i); reflexivity.
      * destruct (1 <=? i); reflexivity.
Qed.

Lemma outer_spaces_matches :
  matches_as CleanseText.OUTER_SPACES outer_spaces_at (fun _ => []).
Proof.
  split.
  - intros bef aft. unfold Re.match_at, CleanseText.OUTER_SPACES.
    rewrite run_alt, !run_cat. unfold outer_spaces_at.
    assert (H2 : Re.run None CleanseText.SPACES (Re.MState bef aft [])
                   (fun st' => Re.run None Re.Eol st' Some) =
                 (let n := span Re.is_space aft in
                  if (1 <=? n) && empty (skipn n aft)
                  then Some (land n [] bef aft) else None)).
    { unfold CleanseText.SPACES. rewrite run_rep. cbn [Re.after].
      rewrite (@rep_give_back Re.is_space _ 1 None _ run_space) by lia.
      now rewrite give_back_end. }
    rewrite H2. cbv zeta. cbn [Re.run Re.before].
    destruct bef as [|b bef]; cbn [empty orb].
    + rewrite run_spaces. cbv zeta. rewrite andb_true_r.
      destruct (1 <=? span Re.is_space aft); [reflexivity|].
      reflexivity.
    + destruct ((1 <=? span Re.is_space aft)
                && empty (skipn (span Re.is_space aft) aft)); reflexivity.
  - intros bef aft n. unfold outer_spaces_at.
    pose proof (span_le Re.is_space aft).
    destruct (1 <=? span Re.is_space aft) eqn:E; [|discriminate].
    apply Nat.leb_le in E. cbn [andb].
    destruct (empty bef || _); [|discriminate].
    intro H'. injection H' as <-. lia.
Qed.

Lemma strip_whitespace_rows : forall token col,
  plain token ->
  CleanseText.strip_whitespace token col =
  Ok (map (fun x =>
             replace_all outer_spaces_at [] 0 []
               (replace_all spaces_at token 0 [] x)) col).
Proof.
  intros token col Hp. unfold CleanseText.strip_whitespace.
  rewrite (replace_regex_all col spaces_matches Hp). cbn [bind].
  rewrite (replace_regex_all _ outer_spaces_matches plain_nil).
  now rewrite map_map.
Qed.

(** X15: for every token without a backslash, [strip_whitespace] first
    replaces every maximal run of whitespace with the token, and then, in
    the text so made, removes a run of whitespace that begins it and one
    that ends it. *)
Theorem strip_whitespace_spec : forall token col,
  plain token ->
  CleanseText.strip_whitespace token col =
  Ok (map (fun x =>
             replace_all outer_spaces_at [] 0 []
               (replace_all spaces_at token 0 [] x)) col).
Proof. exact strip_whitespace_rows. Qed.

Lemma strip_whitespace_spec_example :
  plain (py "_")
  /\ CleanseText.strip_whitespace (py "_") [py "  a   b  "] =
     Ok (map (fun x =>
                replace_all outer_spaces_at [] 0 []
                  (replace_all spaces_at (py "_") 0 [] x)) [py "  a   b  "]).
Proof.
  split; [apply plain_one; discriminate|].
  apply (@strip_whitespace_spec (py "_") [py "  a   b  "]).
  apply plain_one. discriminate.
Defined.

Lemma no_space_replace : forall token x k bef,
  forallb (fun c => negb (Re.is_space c)) token = true ->
  forallb (fun c => negb (Re.is_space c))
    (replace_all spaces_at token k bef x) = true.
Proof.
  intros token. induction x as [|c x IH]; intros k bef Ht; [reflexivity|].
  cbn [replace_all]. destruct k as [|k]; [|now apply IH].
  unfold spaces_at. cbn [span].
  destruct (Re.is_space c) eqn:Hc.
  - cbn [Nat.leb]. rewrite forallb_app, Ht. now apply IH.
  - cbn [Nat.leb forallb]. rewrite Hc. cbn [negb andb]. now apply IH.
Qed.

Lemma no_space_trim : forall y bef,
  forallb (fun c => negb (Re.is_space c)) y = true ->
  replace_all outer_spaces_at [] 0 bef y = y.
Proof.
  induction y as [|c y IH]; intros bef H; [reflexivity|].
  cbn [forallb] in H. apply andb_true_iff in H. destruct H as [Hc Hy].
  apply negb_true_iff in Hc.
  cbn [replace_all]. unfold outer_spaces_at. cbn [span]. rewrite Hc.
  cbn [Nat.leb andb]. f_equal. now apply IH.
Qed.

(** X16: with a token that holds neither a backslash nor whitespace (the
    empty token too), [strip_whitespace] trims nothing: whitespace that
    begins or ends a row becomes the token like any other run, and the
    result holds no whitespace at all. *)
Theorem strip_whitespace_token_not_trimmed : forall token col,
  plain token ->
  forallb (fun c => negb (Re.is_space c)) token = true ->
  CleanseText.strip_whitespace token col =
  Ok (map (replace_all spaces_at token 0 []) col)
  /\ Forall (fun y => forallb (fun c => negb (Re.is_space c)) y = true)
       (map (replace_all spaces_at token 0 []) col).
Proof.
  intros token col Hp Ht. split.
  - rewrite strip_whitespace_rows by assumption. f_equal.
    apply map_ext. intro x. apply no_space_trim. now apply no_space_replace.
  - apply Forall_map, Forall_forall. intros x _. now apply no_space_replace.
Qed.

Lemma strip_whitespace_token_not_trimmed_example :
  (plain (py "_") /\ forallb (fun c => negb (Re.is_space c)) (py "_") = true)
  /\ (CleanseText.strip_whitespace (py "_") [py "  a   b  "] =
      Ok (map (replace_all spaces_at (py "_") 0 []) [py "  a   b  "])
      /\ Forall (fun y => forallb (fun c => negb (Re.is_space c)) y = true)
           (map (replace_all spaces_at (py "_") 0 []) [py "  a   b  "])).
Proof.
  assert (P : plain (py "_")) by (apply plain_one; discriminate).
  split; [split; [exact P | reflexivity]|].
  apply (@strip_whitespace_token_not_trimmed (py "_") [py "  a   b  "] P).
  reflexivity.
Defined.

Lemma strip_whitespace_token_value :
  CleanseText.strip_whitespace (py "_") [py "  a   b  "] = Ok [py "_a_b_"].
Proof. vm_compute. reflexivity. Qed.

Lemma spaces_at_cons : forall bef c x,
  spaces_at bef (c :: x) =
  if Re.is_space c then Some (S (span Re.is_space x)) else None.
Proof.
  intros bef c x. unfold spaces_at. cbn [span].
  destruct (Re.is_space c); reflexivity.
Qed.

Lemma collapse_runs : forall x bef,
  replace_all spaces_at [32%N] (span Re.is_space x) bef x = collapse true x
  /\ replace_all spaces_at [32%N] 0 bef x = collapse false x.
Proof.
  induction x as [|c x IH]; intro bef; [split; reflexivity|].
  destruct (IH (c :: bef)) as [IHa IHb].
  cbn [span replace_all collapse]. rewrite spaces_at_cons.
  destruct (Re.is_space c) eqn:Hc; cbn [app].
  - replace (S (span Re.is_space x) - 1) with (span Re.is_space x) by lia.
    now rewrite IHa.
  - now rewrite IHb.
Qed.

Lemma collapse_head : forall x, span Re.is_space (collapse true x) = 0.
Proof.
  induction x as [|c x IH]; [reflexivity|]. cbn [collapse].
  destruct (Re.is_space c) eqn:Hc; [exact IH|]. cbn [span]. now rewrite Hc.
Qed.

Lemma collapse_skip : forall x,
  collapse true x = collapse false (skipn (span Re.is_space x) x).
Proof.
  induction x as [|c x IH]; [reflexivity|]. cbn [collapse span].
  destruct (Re.is_space c) eqn:Hc; [exact IH|].
  cbn [skipn collapse]. now rewrite Hc.
Qed.

(** Trimming behind the beginning of a text: a space before a word stays,
    one that ends the text goes. *)
Lemma trim_collapsed : forall x bef,
  bef <> [] ->
  replace_all outer_spaces_at [] 0 bef (32%N :: collapse true x) =
  spaced true x
  /\ replace_all outer_spaces_at [] 0 bef (collapse false x) = spaced false x.
Proof.
  induction x as [|c x IH]; intros bef Hb.
  - split; [|reflexivity]. cbn [collapse replace_all].
    unfold outer_spaces_at. cbn. destruct bef; reflexivity.
  - cbn [collapse spaced]. destruct (Re.is_space c) eqn:Hc.
    + cbn [app]. destruct (IH bef Hb) as [IHa _]. now split.
    + assert (Hn : forall b y, outer_spaces_at b (c :: y) = None).
      { intros b y. unfold outer_spaces_at. cbn [span]. now rewrite Hc. }
      assert (Q : forall b, b <> [] ->
                replace_all outer_spaces_at [] 0 b (c :: collapse false x) =
                c :: spaced false x).
      { intros b Hb'. cbn [replace_all]. rewrite Hn. f_equal.
        apply IH. discriminate. }
      split; [|now apply Q].
      cbn [replace_all]. unfold outer_spaces_at at 1.
      cbn [span]. change (Re.is_space 32) with true. rewrite Hc.
      cbn [Nat.leb skipn empty andb orb].
      destruct bef as [|b bef]; [contradiction|]. cbn [empty orb app].
      f_equal. apply Q. discriminate.
Qed.

Lemma trim_all : forall x,
  replace_all outer_spaces_at [] 0 [] (collapse false x) =
  spaced false (skipn (span Re.is_space x) x).
Proof.
  intros [|c x]; [reflexivity|]. cbn [collapse span].
  destruct (Re.is_space c) eqn:Hc.
  - cbn [app skipn replace_all]. unfold outer_spaces_at.
    cbn [span]. change (Re.is_space 32) with true.
    rewrite collapse_head. cbn [Nat.leb empty orb andb app Nat.sub].
    rewrite collapse_skip. apply trim_collapsed. discriminate.
  - cbn [skipn replace_all spaced]. rewrite Hc. unfold outer_spaces_at.
    cbn [span]. rewrite Hc. cbn [Nat.leb andb app]. f_equal.
    apply trim_collapsed. discriminate.
Qed.

Lemma join_cons : forall sep a l,
  str_join sep (a :: l) =
  a ++ match l with
       | [] => []
       | _ :: _ => sep ++ str_join sep l
       end.
Proof.
  intros sep a [|b l]; [cbn; now rewrite app_nil_r | reflexivity].
Qed.

Lemma words_some : forall x c cur, words (c :: cur) x <> [].
Proof.
  induction x as [|d x IH]; intros c cur; [discriminate|].
  cbn [words]. destruct (Re.is_space d); [discriminate | apply IH].
Qed.

Lemma join_words : forall x,
  (forall c cur,
      str_join [32%N] (words (c :: cur) x) =
      rev (c :: cur) ++ spaced false x)
  /\ match words [] x with
     | [] => []
     | _ :: _ => 32%N :: str_join [32%N] (words [] x)
     end = spaced true x.
Proof.
  induction x as [|d x [IH1 IH2]].
  - split; [|reflexivity]. intros c cur. cbn [words str_join spaced].
    now rewrite app_nil_r.
  - split.
    + intros c cur. cbn [words spaced]. destruct (Re.is_space d).
      * change ([rev (c :: cur)] ++ words [] x)
          with (rev (c :: cur) :: words [] x).
        rewrite join_cons, <- IH2. destruct (words [] x); reflexivity.
      * rewrite IH1. cbn [rev app]. now rewrite <- !app_assoc.
    + cbn [words spaced]. destruct (Re.is_space d); [exact IH2|].
      pose proof (words_some x d []) as Hne.
      destruct (words [d] x) eqn:E; [contradiction|].
      rewrite <- E, IH1. reflexivity.
Qed.

Lemma join_words_all : forall x,
  str_join [32%N] (words [] x) = spaced false (skipn (span Re.is_space x) x).
Proof.
  induction x as [|c x IH]; [reflexivity|]. cbn [words span].
  destruct (Re.is_space c) eqn:Hc; [exact IH|].
  cbn [skipn spaced]. rewrite Hc.
  destruct (join_words x) as [H1 _]. now rewrite H1.
Qed.

(** X17: with its default token, the space, [strip_whitespace] returns for
    each row its words (the runs of characters that are no whitespace)
    joined by single spaces: nothing before the first word, nothing behind
    the last, and the empty text for a row of whitespace only. *)
Theorem strip_whitespace_default : forall col,
  CleanseText.strip_whitespace (py " ") col =
  Ok (map (fun x => str_join (py " ") (words [] x)) col).
Proof.
  intro col. rewrite strip_whitespace_rows by (apply plain_one; discriminate).
  f_equal. apply map_ext. intro x. change (py " ") with [32%N].
  destruct (collapse_runs x []) as [_ ->].
  now rewrite trim_all, join_words_all.
Qed.

Lemma strip_whitespace_default_value :
  CleanseText.strip_whitespace (py " ") [py "  a   b  "] = Ok [py "a b"].
Proof. vm_compute. reflexivity. Qed.

(** ** Tokens *)

(** The pieces of a scan, put together, are the text. *)
Lemma scan_covers : forall m fuel bef aft,
  length aft < fuel ->
  flat_map piece_text (Re.scan m fuel bef aft) = aft.
Proof.
  intros m. induction fuel as [|fuel IH]; intros bef aft H; [lia|].
  cbn [Re.scan].
  assert (Hon : flat_map piece_text
                  match aft with
                  | [] => []
                  | c :: aft' => Re.Skip c :: Re.scan m fuel (c :: bef) aft'
                  end = aft).
  { destruct aft as [|c aft]; [reflexivity|]. cbn [flat_map piece_text app].
    f_equal. apply IH. cbn in H. lia. }
  destruct (m bef aft) as [s|]; [|exact Hon].
  destruct (length aft - length (Re.after s)) as [|n] eqn:E.
  - cbn [flat_map piece_text app]. exact Hon.
  - cbn [flat_map piece_text]. rewrite IH by (rewrite length_skipn; lia).
    apply firstn_skipn.
Qed.

Lemma subseq_refl : forall x, subseq x x.
Proof. induction x; constructor; assumption. Qed.

Lemma subseq_skipn : forall n u x, subseq u (skipn n x) -> subseq u x.
Proof.
  induction n as [|n IH]; intros u x H; [exact H|].
  destruct x as [|c x]; [exact H|]. constructor. now apply IH.
Qed.

(** With the empty token a scan only leaves characters out. *)
Lemma scan_deletes : forall m fuel bef aft,
  subseq (flat_map (replaced []) (Re.scan m fuel bef aft)) aft.
Proof.
  intros m. induction fuel as [|fuel IH]; intros bef aft.
  - cbn. induction aft; constructor; assumption.
  - cbn [Re.scan].
    assert (Hon : subseq
                    (flat_map (replaced [])
                       match aft with
                       | [] => []
                       | c :: aft' =>
                           Re.Skip c :: Re.scan m fuel (c :: bef) aft'
                       end) aft).
    { destruct aft as [|c aft]; [constructor|].
      cbn [flat_map replaced app]. constructor. apply IH. }
    destruct (m bef aft) as [s|]; [|exact Hon].
    destruct (length aft - length (Re.after s)) as [|n].
    + exact Hon.
    + cbn [flat_map replaced Template.render app].
      eapply subseq_skipn, IH.
Qed.

Lemma token_method_pattern : forall f,
  In f token_methods ->
  exists r, forall token col, f token col = Series.str_replace_regex r token col.
Proof.
  intros f H. unfold token_methods in H. cbn [In] in H.
  repeat destruct H as [<-|H]; try contradiction; eexists; reflexivity.
Qed.

(** X18: with the empty token (their default) [strip_elipses],
    [strip_hyperlink], [strip_hashtags], [strip_mentions] and
    [strip_retweets] never raise, and each row they return is the input
    row with some characters left out: nothing is added, changed or moved. *)
Theorem default_token_only_deletes : forall f col,
  In f token_methods ->
  exists out, f [] col = Ok out /\ Forall2 subseq out col.
Proof.
  intros f col H. destruct (token_method_pattern H) as [r Hr].
  rewrite Hr. unfold Series.str_replace_regex.
  exists (map (fun x => flat_map (replaced []) (Re.finditer None r x)) col).
  split.
  - apply mapM_total. intro x. now rewrite re_sub_plain by apply plain_nil.
  - induction col as [|x col IH]; constructor; [|exact IH].
    apply scan_deletes.
Qed.

Lemma default_token_only_deletes_example :
  In TweetParser.strip_mentions token_methods
  /\ exists out,
       TweetParser.strip_mentions [] [py "hi @bob, RT @al: x"] = Ok out
       /\ Forall2 subseq out [py "hi @bob, RT @al: x"].
Proof.
  assert (H : In TweetParser.strip_mentions token_methods)
    by (right; right; right; left; reflexivity).
  split; [exact H|].
  apply (@default_token_only_deletes TweetParser.strip_mentions
           [py "hi @bob, RT @al: x"] H).
Defined.

Lemma parse_plain_char : forall ng fuel c rest,
  (c =? 92)%N = false ->
  Template.parse ng (S fuel) (c :: rest) =
  (tl <- Template.parse ng fuel rest ;; Ok ([Template.TLit c] ++ tl)).
Proof.
  intros ng fuel c rest H. cbn [Template.parse]. now rewrite H.
Qed.

Lemma parse_lone_backslash : forall ng token fuel,
  plain token -> length token < fuel ->
  Template.parse ng (S fuel) (token ++ [92%N]) = Err TemplateError.
Proof.
  induction token as [|c token IH]; intros fuel Hp Hf.
  - reflexivity.
  - destruct fuel as [|fuel]; [cbn in Hf; lia|].
    assert (Hc : (c =? 92)%N = false).
    { apply N.eqb_neq. intro; subst. apply Hp. now left. }
    cbn [app]. rewrite parse_plain_char by exact Hc.
    rewrite IH; [reflexivity | | cbn in Hf; lia].
    intro Hin. apply Hp. now right.
Qed.

(** X19: a token that ends in a single backslash behind text without
    backslashes is no valid replacement: each of the five methods raises
    on every column that has a row, whether or not anything matches, and
    returns the empty column for the empty column. *)
Theorem bad_token_raises : forall f token x col,
  In f token_methods ->
  plain token ->
  f (token ++ [92%N]) (x :: col) = Err TemplateError
  /\ f (token ++ [92%N]) [] = Ok [].
Proof.
  intros f token x col H Hp. destruct (token_method_pattern H) as [r Hr].
  rewrite !Hr. split; [|reflexivity].
  unfold Series.str_replace_regex. cbn [mapM]. unfold re_sub at 1.
  unfold Template.compile. rewrite length_app. cbn [length].
  replace (S (length token + 1)) with (S (S (length token))) by lia.
  rewrite parse_lone_backslash by (assumption || lia). reflexivity.
Qed.

Lemma bad_token_raises_example :
  (In TweetParser.strip_hashtags token_methods /\ plain (py "tag"))
  /\ (TweetParser.strip_hashtags (py "tag" ++ [92%N]) [py "no match here"] =
      Err TemplateError
      /\ TweetParser.strip_hashtags (py "tag" ++ [92%N]) [] = Ok []).
Proof.
  assert (H : In TweetParser.strip_hashtags token_methods)
    by (right; right; left; reflexivity).
  assert (P : plain (py "tag"))
    by (vm_compute; intuition discriminate).
  split; [split; assumption|].
  apply (@bad_token_raises TweetParser.strip_hashtags (py "tag")
           (py "no match here") [] H P).
Defined.

Lemma compile_whole_match : forall ng,
  Template.compile ng (py "\g<0>") = Ok [Template.TGroup 0].
Proof. intro ng. reflexivity. Qed.

(** X20: the token is a replacement template of [re.sub], not plain text:
    with the token [\g<0>], which stands for the match itself, each of the
    five methods returns every row unchanged. *)
Theorem whole_match_token_is_identity : forall f col,
  In f token_methods ->
  f (py "\g<0>") col = Ok col.
Proof.
  intros f col H. destruct (token_method_pattern H) as [r Hr].
  rewrite Hr. unfold Series.str_replace_regex.
  rewrite <- (map_id col) at 2. apply mapM_total. intro x.
  unfold re_sub. rewrite compile_whole_match. cbn [bind]. f_equal.
  unfold Re.finditer.
  transitivity (flat_map piece_text
                  (Re.scan (Re.match_at None r) (S (length x)) [] x)).
  - apply flat_map_ext. intros [c|m g]; [reflexivity|].
    cbn. apply app_nil_r.
  - apply scan_covers. lia.
Qed.

Lemma whole_match_token_is_identity_example :
  In TweetParser.strip_retweets token_methods
  /\ TweetParser.strip_retweets (py "\g<0>") [py "RT @al: hi"; py "x"] =
     Ok [py "RT @al: hi"; py "x"].
Proof.
  assert (H : In TweetParser.strip_retweets token_methods)
    by (right; right; right; right; left; reflexivity).
  split; [exact H|].
  apply (@whole_match_token_is_identity TweetParser.strip_retweets
           [py "RT @al: hi"; py "x"] H).
Defined.

(** ** What is stripped is what is found *)

(** X21: for every token without a backslash, [strip_hashtags],
    [strip_mentions], [strip_retweets] and [strip_hyperlink] replace with
    the token exactly the matches whose texts [get_hashtags],
    [get_mentions], [get_retweets] and [get_hyperlinks] report, found by
    the same scan from the left, and keep every other character; so
    [strip_mentions] leaves a handle behind [RT] and whitespace alone, and
    [strip_retweets] takes [RT], the handle and its colon together. *)
Theorem strip_replaces_what_get_finds : forall token col,
  plain token ->
  TweetParser.strip_hashtags token col =
  Ok (map (replace_all hashtag_at token 0 []) col)
  /\ TweetParser.strip_mentions token col =
     Ok (map (replace_all (mention_at rt_marker) token 0 []) col)
  /\ TweetParser.strip_retweets token col =
     Ok (map (replace_all (fun b a => option_map fst (retweet_finder b a))
                token 0 []) col)
  /\ CleanseText.strip_hyperlink token col =
     Ok (map (replace_all url_at token 0 []) col).
Proof.
  intros token col Hp.
  unfold TweetParser.strip_hashtags, TweetParser.strip_mentions,
    TweetParser.strip_retweets, CleanseText.strip_hyperlink.
  repeat split.
  - apply (replace_regex_all col hashtag_matches Hp).
  - apply (replace_regex_all col mention_matches Hp).
  - apply (replace_regex_all col retweet_matches Hp).
  - apply (replace_regex_all col url_matches Hp).
Qed.

Lemma strip_replaces_what_get_finds_example :
  plain (py "<user>")
  /\ (TweetParser.strip_hashtags (py "<user>") [py "RT @al: hi @bob #x"] =
      Ok (map (replace_all hashtag_at (py "<user>") 0 [])
            [py "RT @al: hi @bob #x"])
      /\ TweetParser.strip_mentions (py "<user>") [py "RT @al: hi @bob #x"] =
         Ok (map (replace_all (mention_at rt_marker) (py "<user>") 0 [])
               [py "RT @al: hi @bob #x"])
      /\ TweetParser.strip_retweets (py "<user>") [py "RT @al: hi @bob #x"] =
         Ok (map (replace_all
                    (fun b a => option_map fst (retweet_finder b a))
                    (py "<user>") 0 []) [py "RT @al: hi @bob #x"])
      /\ CleanseText.strip_hyperlink (py "<user>") [py "RT @al: hi @bob #x"]
         = Ok (map (replace_all url_at (py "<user>") 0 [])
                 [py "RT @al: hi @bob #x"])).
Proof.
  assert (P : plain (py "<user>")) by (vm_compute; intuition discriminate).
  split; [exact P|].
  apply (@strip_replaces_what_get_finds (py "<user>")
           [py "RT @al: hi @bob #x"] P).
Defined.

Lemma strip_mentions_value :
  TweetParser.strip_mentions (py "<user>") [py "RT @al: hi @bob #x"] =
  Ok [py "RT @al: hi <user> #x"].
Proof. vm_compute. reflexivity. Qed.

(** ** Escaped newlines do not come back *)

Lemma newline_at_cons : forall bef c y,
  newline_at bef (c :: y) = None <->
  ((92 =? c)%N && head_is 110 y = false).
Proof.
  intros bef c y. unfold newline_at. cbn [escaped_newlines].
  destruct y as [|d y]; cbn [head_is].
  - rewrite andb_false_r. split; reflexivity.
  - destruct ((92 =? c)%N && (110 =? d)%N); cbn; split; congruence.
Qed.

Lemma strip_newline_head : forall x bef,
  head_is 110 (replace_all newline_at [32%N] 0 bef x) = true ->
  head_is 110 x = true.
Proof.
  intros [|c x] bef; [discriminate|]. cbn [replace_all].
  destruct (newline_at bef (c :: x)); [discriminate | intro H; exact H].
Qed.

Lemma strip_newline_free : forall x skip bef,
  newline_free (replace_all newline_at [32%N] skip bef x).
Proof.
  induction x as [|c x IH]; intros skip bef; [exact I|].
  cbn [replace_all]. destruct skip as [|k]; [|apply IH].
  destruct (newline_at bef (c :: x)) as [n|] eqn:E.
  - cbn [app newline_free]. split; [|apply IH].
    apply newline_at_cons. reflexivity.
  - cbn [newline_free]. split; [|apply IH].
    apply newline_at_cons. apply newline_at_cons in E.
    destruct (92 =? c)%N; [|reflexivity]. cbn [andb] in *.
    destruct (head_is 110 (replace_all _ _ _ _ x)) eqn:Hh; [|reflexivity].
    apply strip_newline_head in Hh. congruence.
Qed.

Lemma newline_free_fixed : forall token y bef,
  newline_free y -> replace_all newline_at token 0 bef y = y.
Proof.
  induction y as [|c y IH]; intros bef H; [reflexivity|].
  destruct H as [H1 H2]. cbn [replace_all].
  change (newline_at bef (c :: y)) with (newline_at [] (c :: y)).
  rewrite H1. f_equal. now apply IH.
Qed.

Lemma strip_newline_rows : forall col,
  CleanseText.strip_newline col =
  Ok (map (replace_all newline_at (py " ") 0 []) col).
Proof.
  intro col. unfold CleanseText.strip_newline.
  apply (replace_regex_all col newline_matches).
  apply plain_one. discriminate.
Qed.

(** X22: [strip_newline] never raises, leaves no escaped newline (a
    backslash followed by [n]) in any row, and applied once more changes
    nothing. *)
Theorem strip_newline_idempotent : forall col,
  exists out,
    CleanseText.strip_newline col = Ok out
    /\ Forall newline_free out
    /\ CleanseText.strip_newline out = Ok out.
Proof.
  intro col. exists (map (replace_all newline_at (py " ") 0 []) col).
  split; [apply strip_newline_rows|]. split.
  - apply Forall_map, Forall_forall. intros x _. apply strip_newline_free.
  - rewrite strip_newline_rows. f_equal. rewrite <- (map_id (map _ col)) at 2.
    rewrite !map_map. apply map_ext. intro x.
    apply newline_free_fixed, strip_newline_free.
Qed.
